(** * ully: OCR-tree-to-region extraction and overlay layout

    A shallow embedding of the translate-image route of [app.ts]
    (paragraph reconstruction, region filtering, reading-order sort,
    pairing with the translated strings) and of [overlay.ts]
    (rectangle derivation, padding, font-fit loop, word wrap, drawing).

    Conventions of the embedding.
    - A JavaScript string is the list of its UTF-16 code units ([jsstring]).
    - Pixel coordinates and image sizes are integers ([Z]): the OCR service
      delivers int32 vertices and the canvas has integer sizes.  On such
      values [Math.floor (n * 0.08)], [Math.floor (n * 0.75)],
      [Math.floor (n * 0.9)] and [Math.ceil (n * 1.25)] are the floor and
      ceiling of the exact rational product, which is how they are written
      here ([Qfloor], [Qceiling]).
    - A measured text width is a rational number ([Q]).
    - The canvas is a log of the drawing calls made on it. *)

From Stdlib Require Import String Ascii.
From Stdlib Require Import ZArith NArith QArith Qround List Bool Lia.
From Stdlib Require Import Permutation Sorted.
From Stdlib Require Import Reals Lra.
Import ListNotations.

Local Open Scope Z_scope.

(* ------------------------------------------------------------------ *)
(** * JavaScript strings *)

Module JS.

Definition jschar := N.
Definition jsstring := list jschar.

(** An ASCII literal as a JavaScript string. *)
Definition str (s : string) : jsstring :=
  List.map N_of_ascii (list_ascii_of_string s).

Definition SP : jschar := 32%N.
Definition NL : jschar := 10%N.

(** The class [\s] of a regular expression, which is also the set of
    characters [String.prototype.trim] removes (WhiteSpace and
    LineTerminator of ECMAScript). *)
Definition isSpace (c : jschar) : bool :=
  ((9 <=? c) && (c <=? 13) || (c =? 32) || (c =? 160) || (c =? 5760)
   || (8192 <=? c) && (c <=? 8202) || (c =? 8232) || (c =? 8233)
   || (c =? 8239) || (c =? 8287) || (c =? 12288) || (c =? 65279))%N.

(** The class [[ \t]]. *)
Definition isBlank (c : jschar) : bool := ((c =? 32) || (c =? 9))%N.

(** Truthiness of a string: the empty string is the only falsy one. *)
Definition truthy (s : jsstring) : bool :=
  match s with [] => false | _ :: _ => true end.

Fixpoint dropWhile {A} (p : A -> bool) (l : list A) : list A :=
  match l with
  | [] => []
  | c :: r => if p c then dropWhile p r else l
  end.

Definition trimStart (s : jsstring) : jsstring := dropWhile isSpace s.
Definition trimEnd (s : jsstring) : jsstring := rev (dropWhile isSpace (rev s)).
Definition trim (s : jsstring) : jsstring := trimEnd (trimStart s).

Definition startsWithNL (s : jsstring) : bool :=
  match s with c :: _ => (c =? NL)%N | [] => false end.

(** [s.replace(/[ \t]+\n/g, '\n')]: a blank that is followed by blanks
    only up to a newline lies inside a match and is deleted; the newline
    that ends the match is put back by the replacement. *)
Fixpoint replaceBlanksNL (s : jsstring) : jsstring :=
  match s with
  | [] => []
  | c :: r =>
      if isBlank c && startsWithNL (dropWhile isBlank r)
      then replaceBlanksNL r
      else c :: replaceBlanksNL r
  end.

(** [s.replace(/\s+/g, ' ')]: every maximal run of whitespace becomes one
    space; a whitespace character followed by another one is inside the
    run, the last one of the run yields the space. *)
Fixpoint replaceSpaceRuns (s : jsstring) : jsstring :=
  match s with
  | [] => []
  | c :: r =>
      if isSpace c then
        match r with
        | c' :: _ => if isSpace c' then replaceSpaceRuns r
                     else SP :: replaceSpaceRuns r
        | [] => [SP]
        end
      else c :: replaceSpaceRuns r
  end.

(** [s.split(sep)] for a one-character separator; [''.split(' ')] is
    [['']]. *)
Fixpoint split (sep : jschar) (s : jsstring) : list jsstring :=
  match s with
  | [] => [[]]
  | c :: r =>
      if (c =? sep)%N then [] :: split sep r
      else match split sep r with
           | w :: ws => (c :: w) :: ws
           | [] => [[c]]
           end
  end.

(** [Math.min(...l)] and [Math.max(...l)].  On the empty list JavaScript
    gives [Infinity] and [-Infinity]; the model has no such values and
    gives 0 there, and every statement about a minimum or a maximum is
    made for a non-empty list (every region the route builds has at least
    four points). *)
Definition Math_min (l : list Z) : Z :=
  match l with [] => 0 | a :: r => fold_left Z.min r a end.
Definition Math_max (l : list Z) : Z :=
  match l with [] => 0 | a :: r => fold_left Z.max r a end.

(** [arr.map((r, i) => f r i)]. *)
Fixpoint mapi_from {A B} (i : nat) (f : A -> nat -> B) (l : list A) : list B :=
  match l with
  | [] => []
  | a :: r => f a i :: mapi_from (S i) f r
  end.
Definition mapi {A B} (f : A -> nat -> B) (l : list A) : list B :=
  mapi_from 0 f l.

(** [Array.prototype.sort(cmp)].  The routine belongs to the host; the
    language fixes its result for a consistent comparator: the stable
    sorted permutation.  It is modelled by the stable insertion sort,
    which computes that permutation: an element moves left of the ones
    before it only while the comparator says it is strictly smaller.
    For a comparator that is not consistent the host's order is its own
    and may differ from this one; what is stated about the order of a
    sorted list is stated for a consistent comparator or an already
    ordered list, everything else uses only that the result is a
    permutation of the input. *)
Section Sort.
Context {A : Type} (cmp : A -> A -> Z).

Fixpoint insert (a : A) (l : list A) : list A :=
  match l with
  | [] => [a]
  | b :: r => if cmp a b <=? 0 then a :: b :: r else b :: insert a r
  end.

Definition sort (l : list A) : list A := fold_right insert [] l.
End Sort.

End JS.
Import JS.

(* ------------------------------------------------------------------ *)
(** * app.ts: the annotation tree *)

(** [s.property?.detectedBreak?.type]: absent, a symbolic name, or the
    number some clients send instead. *)
Inductive BreakCode :=
| BrUnset
| BrName (name : string)
| BrNum (n : Z).

Record Symbol := {
  sym_text : option jsstring;          (* s.text *)
  sym_break : BreakCode                (* s.property?.detectedBreak?.type *)
}.

Record Word := { symbols : option (list Symbol) }.

Record Vertex := { vx : option Z; vy : option Z }.

Record Paragraph := {
  words : option (list Word);
  (** [pg.boundingBox?.vertices]; an entry may be null. *)
  vertices : option (list (option Vertex))
}.

Record Block := { paragraphs : option (list Paragraph) }.
Record Page := { blocks : option (list Block) }.

(** [a ?? d]. *)
Definition orElse {A} (a : option A) (d : A) : A :=
  match a with Some v => v | None => d end.

(** [type Pt = { x: number; y: number }]. *)
Record Pt := { x : Z; y : Z }.

(** [type Region = { text: string; box: Pt[] }]. *)
Record Region := { text : jsstring; box : list Pt }.

(** [br === name || br === num]. *)
Definition brIs (br : BreakCode) (name : string) (num : Z) : bool :=
  match br with
  | BrUnset => false
  | BrName s => String.eqb s name
  | BrNum n => n =? num
  end.

(** The three [if]s that follow [out += s.text ?? '']. *)
Definition appendBreak (out : jsstring) (br : BreakCode) : jsstring :=
  let out := if brIs br "SPACE" 1 then out ++ [SP] else out in
  let out := if brIs br "EOL_SURE_SPACE" 3 then out ++ [SP] else out in
  let out := if brIs br "LINE_BREAK" 5 then out ++ [NL] else out in
  out.

Definition appendSymbol (out : jsstring) (s : Symbol) : jsstring :=
  appendBreak (out ++ orElse (sym_text s) []) (sym_break s).

Definition appendWord (out : jsstring) (w : Word) : jsstring :=
  fold_left appendSymbol (orElse (symbols w) []) out.

(** The text accumulated by the two loops of [getParagraphText]. *)
Definition rawParagraphText (pg : Paragraph) : jsstring :=
  fold_left appendWord (orElse (words pg) []) [].

Definition getParagraphText (pg : Paragraph) : jsstring :=
  trim (replaceBlanksNL (rawParagraphText pg)).

(** [v?.x ?? 0] and [v?.y ?? 0]. *)
Definition toPt (v : option Vertex) : Pt :=
  {| x := orElse (match v with Some v => vx v | None => None end) 0;
     y := orElse (match v with Some v => vy v | None => None end) 0 |}.

(** The body of the innermost loop that fills [regions]. *)
Definition pushParagraph (regions : list Region) (pg : Paragraph) : list Region :=
  let text := getParagraphText pg in
  let box := List.map toPt (orElse (vertices pg) []) in
  if truthy text && (4 <=? length box)%nat
  then regions ++ [{| text := text; box := box |}]
  else regions.

Definition pushBlock (regions : list Region) (b : Block) : list Region :=
  fold_left pushParagraph (orElse (paragraphs b) []) regions.

Definition pushPage (regions : list Region) (p : Page) : list Region :=
  fold_left pushBlock (orElse (blocks p) []) regions.

Definition extractRegions (pages : list Page) : list Region :=
  fold_left pushPage pages [].

(** [Math.min(...r.box.map(p => p.y ?? 0))] and the same for [x]; a
    coordinate of a [Pt] is a number, on which [?? 0] does nothing. *)
Definition topY (r : Region) : Z := Math_min (List.map y (box r)).
Definition leftX (r : Region) : Z := Math_min (List.map x (box r)).

Definition Y_TOLERANCE : Z := 6.

(** The comparator handed to [regions.sort]. *)
Definition compareRegions (a b : Region) : Z :=
  let ay := topY a in
  let by_ := topY b in
  if Z.abs (ay - by_) >? Y_TOLERANCE then ay - by_
  else
    let ax := leftX a in
    let bx := leftX b in
    ax - bx.

Definition sortRegions (regions : list Region) : list Region :=
  sort compareRegions regions.

(** An element of [toDraw]: [{ ...r, translated }]. *)
Record DrawRegion := {
  dr_text : jsstring;
  dr_box : list Pt;
  translated : jsstring
}.

(** [regions.map((r, i) => ({ ...r, translated: translated[i] ?? '' }))]. *)
Definition toDraw (regions : list Region) (translated : list jsstring)
  : list DrawRegion :=
  mapi (fun r i => {| dr_text := text r; dr_box := box r;
                      translated := nth i translated [] |}) regions.

(* ------------------------------------------------------------------ *)
(** * overlay.ts *)

Inductive Color := White | Black.

(** The calls made on the canvas context, each with the fill style (and
    font size, in px) in force when it is made. *)
Inductive DrawCall :=
| DrawImage
| FillRect (style : Color) (x y w h : Z)
| FillText (style : Color) (font : Z) (line : jsstring) (x y : Z).

Record Rect := { rx : Z; ry : Z; rw : Z; rh : Z }.

(** The axis-aligned rectangle of a box on an image of the given size. *)
Definition rectOf (imgW imgH : Z) (box : list Pt) : Rect :=
  let xs := List.map x box in
  let ys := List.map y box in
  let x0 := Z.max 0 (Math_min xs) in
  let y0 := Z.max 0 (Math_min ys) in
  let w := Z.max 1 (Z.min imgW (Math_max xs) - x0) in
  let h := Z.max 1 (Z.min imgH (Math_max ys) - y0) in
  {| rx := x0; ry := y0; rw := w; rh := h |}.

Definition padOf (w h : Z) : Z := Qfloor (inject_Z (Z.min w h) * 0.08).
Definition maxWOf (w pad : Z) : Z := Z.max 10 (w - 2 * pad).
Definition maxHOf (h pad : Z) : Z := Z.max 10 (h - 2 * pad).

(** [text.replace(/\s+/g, ' ').trim().split(' ').filter(Boolean)]. *)
Definition wordsOf (text : jsstring) : list jsstring :=
  List.filter truthy (split SP (trim (replaceSpaceRuns text))).

Record Fit := { fontSize : Z; lineHeight : Z; lines : list jsstring }.

Definition startFont (maxH : Z) : Z := Z.max 10 (Qfloor (inject_Z maxH * 0.75)).
Definition lineHeightOf (fontSize : Z) : Z := Qceiling (inject_Z fontSize * 1.25).
Definition shrink (fontSize : Z) : Z := Qfloor (inject_Z fontSize * 0.9).

(** The draw loop: [cy] is the top of the next line. *)
Fixpoint drawLines (font lineHeight x0 pad y0 h cy : Z) (lines : list jsstring)
  : list DrawCall :=
  match lines with
  | [] => []
  | line :: rest =>
      if cy >? y0 + h - lineHeight then []
      else FillText Black font line (x0 + pad) cy
           :: drawLines font lineHeight x0 pad y0 h (cy + lineHeight) rest
  end.

Section Overlay.

(** [ctx.measureText(s).width] with [ctx.font] set to the given size in
    px, sans-serif: a property of the canvas, any function here. *)
Variable measureText : Z -> jsstring -> Q.

(** One round of the loop of [wrapLines] on the state [(out, line)]. *)
Definition wrapStep (font maxWidth : Z) (st : list jsstring * jsstring)
  (w : jsstring) : list jsstring * jsstring :=
  let '(out, line) := st in
  let test := if truthy line then line ++ [SP] ++ w else w in
  if negb (Qle_bool (measureText font test) (inject_Z maxWidth)) && truthy line
  then (out ++ [line], w)
  else (out, test).

Definition wrapWords (font maxWidth : Z) (ws : list jsstring) : list jsstring :=
  let '(out, line) := fold_left (wrapStep font maxWidth) ws ([], []) in
  if truthy line then out ++ [line] else out.

Definition wrapLines (font : Z) (text : jsstring) (maxWidth : Z) : list jsstring :=
  wrapWords font maxWidth (wordsOf text).

(** The [for (;;)] loop that chooses the font size; each unit of [fuel]
    pays for one pass through its body. *)
Fixpoint fitLoop (fuel : nat) (translated : jsstring) (maxW maxH fontSize : Z)
  : option Fit :=
  match fuel with
  | O => None
  | S fuel' =>
      let lineHeight := lineHeightOf fontSize in
      let lines := wrapLines fontSize translated maxW in
      let neededH := Z.of_nat (length lines) * lineHeight in
      if (neededH <=? maxH) || (fontSize <=? 10)
      then Some {| fontSize := fontSize; lineHeight := lineHeight; lines := lines |}
      else fitLoop fuel' translated maxW maxH (shrink fontSize)
  end.

Definition fontFit (translated : jsstring) (maxW maxH : Z) : option Fit :=
  let fontSize := startFont maxH in
  fitLoop (Z.to_nat fontSize) translated maxW maxH fontSize.

(** The body of the loop over the regions; [None] only if the font-fit
    loop ran out of fuel, which [fontFit_total] excludes. *)
Definition renderRegion (imgW imgH : Z) (r : DrawRegion) : option (list DrawCall) :=
  let rect := rectOf imgW imgH (dr_box r) in
  let pad := padOf (rw rect) (rh rect) in
  let maxW := maxWOf (rw rect) pad in
  let maxH := maxHOf (rh rect) pad in
  match fontFit (translated r) maxW maxH with
  | None => None
  | Some fit =>
      Some (FillRect White (rx rect) (ry rect) (rw rect) (rh rect)
            :: drawLines (fontSize fit) (lineHeight fit) (rx rect) pad
                 (ry rect) (rh rect) (ry rect + pad) (lines fit))
  end.

Fixpoint renderAll (imgW imgH : Z) (regions : list DrawRegion)
  : option (list DrawCall) :=
  match regions with
  | [] => Some []
  | r :: rest =>
      match renderRegion imgW imgH r, renderAll imgW imgH rest with
      | Some calls, Some more => Some (calls ++ more)
      | _, _ => None
      end
  end.

Definition overlayTranslations (imgW imgH : Z) (regions : list DrawRegion)
  : option (list DrawCall) :=
  match renderAll imgW imgH regions with
  | Some calls => Some (DrawImage :: calls)
  | None => None
  end.

(** The translation service: any function from the request to the list
    of translated strings. *)
Variable translateBatch : list jsstring -> list jsstring.

(** Steps 2 to 5 of the route [/translate-image]. *)
Definition translateImage (pages : list Page) (imgW imgH : Z)
  : option (list DrawCall) :=
  let regions := sortRegions (extractRegions pages) in
  let translated := translateBatch (List.map text regions) in
  overlayTranslations imgW imgH (toDraw regions translated).

End Overlay.

(* ------------------------------------------------------------------ *)
(** * The specification's vocabulary *)

(** The canonical break actions. *)
Inductive BreakAction := NONE | SPACE | NEWLINE.

(** The separator a break action stands for. *)
Definition sepOf (a : BreakAction) : jsstring :=
  match a with
  | NONE => []
  | SPACE => [SP]
  | NEWLINE => [NL]
  end.

(** What the three [if]s of [getParagraphText] make of a break code. *)
Definition resolve (br : BreakCode) : BreakAction :=
  if brIs br "SPACE" 1 then SPACE
  else if brIs br "EOL_SURE_SPACE" 3 then SPACE
  else if brIs br "LINE_BREAK" 5 then NEWLINE
  else NONE.

(** The mapping table of the specification, row by row. *)
Definition spec_resolve (br : BreakCode) : BreakAction :=
  if brIs br "SPACE" 1 then SPACE
  else if brIs br "SURE_SPACE" 2 then SPACE
  else if brIs br "EOL_SURE_SPACE" 3 then SPACE
  else if brIs br "HYPHEN" 4 then NONE
  else if brIs br "LINE_BREAK" 5 then NEWLINE
  else NONE.

(** The symbols of a paragraph in tree order: words, then the symbols of
    each word. *)
Definition allSymbols (pg : Paragraph) : list Symbol :=
  flat_map (fun w => orElse (symbols w) []) (orElse (words pg) []).

(** What [getParagraphText] appends for a symbol: its raw text followed
    by what the three [if]s add. *)
Definition symbolText (s : Symbol) : jsstring :=
  orElse (sym_text s) [] ++ sepOf (resolve (sym_break s)).

(** The specification's text of a symbol: its raw text followed by the
    separator of the action the mapping table resolves its break code
    to. *)
Definition spec_symbolText (s : Symbol) : jsstring :=
  orElse (sym_text s) [] ++ sepOf (spec_resolve (sym_break s)).

(** A break code other than SURE_SPACE and its numeric form 2. *)
Definition notSureSpace (s : Symbol) : Prop :=
  sym_break s <> BrName "SURE_SPACE" /\ sym_break s <> BrNum 2.

(** Horizontal whitespace: the whitespace that is neither a line
    terminator nor a vertical tab or form feed. *)
Definition isHorizontal (c : jschar) : bool :=
  isSpace c
  && negb ((10 <=? c) && (c <=? 13) || (c =? 8232) || (c =? 8233))%N.

(** The specification's cleaning: every run of horizontal whitespace
    directly in front of a newline is deleted. *)
Definition spec_dropBeforeNL (s : jsstring) : jsstring :=
  fold_right (fun c acc => if isHorizontal c && startsWithNL acc then acc
                           else c :: acc) [] s.

(** The specification's reconstruction of a paragraph. *)
Definition spec_reconstruct (pg : Paragraph) : jsstring :=
  trim (spec_dropBeforeNL (flat_map spec_symbolText (allSymbols pg))).

(** Deleting the blanks in front of a newline, read from the right: a
    blank is dropped when what follows it, once cleaned, starts with a
    newline. *)
Definition dropBlanksBeforeNL (s : jsstring) : jsstring :=
  fold_right (fun c acc => if isBlank c && startsWithNL acc then acc else c :: acc)
    [] s.

(** No blank stands immediately in front of a newline. *)
Fixpoint noBlankBeforeNL (s : jsstring) : bool :=
  match s with
  | [] => true
  | c :: r => negb (isBlank c && startsWithNL r) && noBlankBeforeNL r
  end.

(** The paragraphs of the tree in pre-order: pages, blocks, paragraphs. *)
Definition allParagraphs (pages : list Page) : list Paragraph :=
  flat_map (fun p => flat_map (fun b => orElse (paragraphs b) [])
                       (orElse (blocks p) [])) pages.

(** The region of a paragraph that passes the filter, if it does. *)
Definition regionOf (pg : Paragraph) : option Region :=
  let t := getParagraphText pg in
  let box := List.map toPt (orElse (vertices pg) []) in
  if truthy t && (4 <=? List.length box)%nat
  then Some {| text := t; box := box |}
  else None.

Definition optList {A} (o : option A) : list A :=
  match o with Some a => [a] | None => [] end.

(** [clamp v lo hi]. *)
Definition clamp (v lo hi : Z) : Z := Z.max lo (Z.min v hi).

(** The rectangle as the specification derives it. *)
Definition spec_rect (imgW imgH : Z) (box : list Pt) : Rect :=
  let xs := List.map x box in
  let ys := List.map y box in
  let x0 := clamp (Math_min xs) 0 imgW in
  let y0 := clamp (Math_min ys) 0 imgH in
  {| rx := x0; ry := y0;
     rw := Z.max 1 (clamp (Math_max xs) 0 imgW - x0);
     rh := Z.max 1 (clamp (Math_max ys) 0 imgH - y0) |}.

(** [m] is the least element of [l]. *)
Definition isMin (m : Z) (l : list Z) : Prop :=
  In m l /\ forall v, In v l -> m <= v.
Definition isMax (m : Z) (l : list Z) : Prop :=
  In m l /\ forall v, In v l -> v <= m.

(** The order the specification asks of two regions [a], [b] when [a]
    comes before [b] in the output. *)
Definition inReadingOrder (a b : Region) : Prop :=
  if Z.abs (topY a - topY b) >? Y_TOLERANCE then topY a <= topY b
  else leftX a <= leftX b.

Definition inReadingOrderb (a b : Region) : bool :=
  if Z.abs (topY a - topY b) >? Y_TOLERANCE then topY a <=? topY b
  else leftX a <=? leftX b.

(** Every region stands in reading order with every later one. *)
Definition readingOrdered (l : list Region) : Prop :=
  ForallOrdPairs inReadingOrder l.

Fixpoint readingOrderedb (l : list Region) : bool :=
  match l with
  | [] => true
  | a :: r => forallb (inReadingOrderb a) r && readingOrderedb r
  end.

(** The comparator is consistent on [l]: its "not after" relation is
    transitive there. *)
Definition consistentOn (l : list Region) : Prop :=
  forall a b c, In a l -> In b l -> In c l ->
    compareRegions a b <= 0 -> compareRegions b c <= 0 ->
    compareRegions a c <= 0.

(** The regions the comparator ties with [a]. *)
Definition tiedWith (a b : Region) : bool := compareRegions a b =? 0.

(** Words joined by single spaces. *)
Fixpoint joinSp (g : list jsstring) : jsstring :=
  match g with
  | [] => []
  | [w] => w
  | w :: r => w ++ [SP] ++ joinSp r
  end.

(** The greedy filling, on groups of words: [cur] is the current line. *)
Fixpoint fill (fits : jsstring -> bool) (cur : list jsstring)
  (ws : list jsstring) : list (list jsstring) :=
  match ws with
  | [] => [cur]
  | w :: r =>
      if fits (joinSp (cur ++ [w])) then fill fits (cur ++ [w]) r
      else cur :: fill fits [w] r
  end.

Definition greedy (fits : jsstring -> bool) (ws : list jsstring)
  : list (list jsstring) :=
  match ws with
  | [] => []
  | w :: r => fill fits [w] r
  end.

(** The maximal runs of non-whitespace characters of a text. *)
Fixpoint tokens (s : jsstring) : list jsstring :=
  match s with
  | [] => []
  | c :: r =>
      if isSpace c then tokens r
      else match r with
           | [] => [[c]]
           | c' :: _ =>
               if isSpace c' then [c] :: tokens r
               else match tokens r with
                    | w :: ws => (c :: w) :: ws
                    | [] => [[c]]
                    end
           end
  end.

(** The calls that draw the first [k] lines from the top [cy], one line
    height apart. *)
Definition drawnLines (font lineHeight px cy : Z) (lines : list jsstring)
  (k : nat) : list DrawCall :=
  List.map (fun i => FillText Black font (nth i lines [])
                       px (cy + Z.of_nat i * lineHeight))
    (seq 0 k).

(** The ceiling of a real number. *)
Definition Rceil (r : R) : Z := - Int_part (- r).

(** The bound of the specification on the font-fit loop:
    [ceil (log (startFont / 10) / log (1 / 0.9))]. *)
Definition shrinkBound (start : Z) : Z :=
  Rceil (ln (IZR start / 10) / ln (1 / 0.9))%R.

(** The test that ends the font-fit loop, at font size [f]. *)
Definition stopsAt (measureText : Z -> jsstring -> Q) (translated : jsstring)
  (maxW maxH f : Z) : bool :=
  (Z.of_nat (List.length (wrapLines measureText f translated maxW))
   * lineHeightOf f <=? maxH) || (f <=? 10).

(** [!(ctx.measureText(s).width > maxWidth)] at the given font size. *)
Definition fitsIn (measureText : Z -> jsstring -> Q) (font maxWidth : Z)
  (s : jsstring) : bool :=
  Qle_bool (measureText font s) (inject_Z maxWidth).

(** Every line is full: the first word of the next line did not fit
    behind it. *)
Fixpoint greedyMaximal (fits : jsstring -> bool) (groups : list (list jsstring))
  : bool :=
  match groups with
  | [] => true
  | g :: rest =>
      match rest with
      | (w :: _) :: _ => negb (fits (joinSp (g ++ [w]))) && greedyMaximal fits rest
      | _ => greedyMaximal fits rest
      end
  end.

(** What [wrapLines] returns from the state its loop ends in. *)
Definition finishWrap (st : list jsstring * jsstring) : list jsstring :=
  let '(out, line) := st in if truthy line then out ++ [line] else out.

(* ------------------------------------------------------------------ *)
(** * Sample inputs *)

Definition sym (c : string) (br : BreakCode) : Symbol :=
  {| sym_text := Some (str c); sym_break := br |}.

(** Example 1: H,e,l,l,o with a space after the last symbol, then
    W,o,r,l,d. *)
Definition helloWorld : Paragraph :=
  {| words := Some
       [ {| symbols := Some [sym "H" BrUnset; sym "e" BrUnset; sym "l" BrUnset;
                             sym "l" BrUnset; sym "o" (BrName "SPACE")] |};
         {| symbols := Some [sym "W" BrUnset; sym "o" BrUnset; sym "r" BrUnset;
                             sym "l" BrUnset; sym "d" BrUnset] |} ];
     vertices := None |}.

Definition pt (a b : Z) : Pt := {| x := a; y := b |}.

(** The box of an upright rectangle, clockwise from its top-left corner. *)
Definition boxAt (left top w h : Z) : list Pt :=
  [pt left top; pt (left + w) top; pt (left + w) (top + h); pt left (top + h)].

(** Example 2: the polygon (0,0),(100,0),(100,30),(0,30). *)
Definition box2 : list Pt := [pt 0 0; pt 100 0; pt 100 30; pt 0 30].

(** A polygon that lies to the right of a 200 by 200 image. *)
Definition farBox : list Pt := [pt 300 0; pt 400 0; pt 400 30; pt 300 30].

(** A sample canvas: every character is half the font size wide. *)
Definition sampleMeasure (font : Z) (s : jsstring) : Q :=
  inject_Z (font * Z.of_nat (List.length s)) * 0.5.

(** Example 3: three regions and two translated strings. *)
Definition threeRegions : list Region :=
  [ {| text := str "one"; box := boxAt 10 10 80 20 |};
    {| text := str "two"; box := boxAt 10 50 80 20 |};
    {| text := str "three"; box := boxAt 10 90 80 20 |} ].

Definition twoAnswers : list jsstring := [str "uno"; str "dos"].

(** Three words on a line that rises to the right: each is within the
    tolerance of its neighbour, the outer two are not. *)
Definition slanted : list Region :=
  [ {| text := str "gamma"; box := boxAt 200 0 80 20 |};
    {| text := str "beta"; box := boxAt 100 5 80 20 |};
    {| text := str "alpha"; box := boxAt 0 10 80 20 |} ].

(** Two regions on one line, given right to left, and one below. *)
Definition twoLines : list Region :=
  [ {| text := str "right"; box := boxAt 100 12 80 20 |};
    {| text := str "left"; box := boxAt 10 10 80 20 |};
    {| text := str "below"; box := boxAt 10 50 80 20 |} ].

(** A narrow region whose translated text takes two lines where only one
    fits. *)
Definition cramped : DrawRegion :=
  {| dr_text := str "Hello World"; dr_box := boxAt 0 0 10 15;
     translated := str "Hola Mundo" |}.

(** The symbols a, then a no-break space that ends a line, then b. *)
Definition nbspParagraph : Paragraph :=
  {| words := Some
       [ {| symbols := Some [sym "a" BrUnset;
                             {| sym_text := Some [160%N];
                                sym_break := BrName "LINE_BREAK" |};
                             sym "b" BrUnset] |} ];
     vertices := None |}.

(** The symbols a, followed by a sure space, and b. *)
Definition sureSpaceParagraph : Paragraph :=
  {| words := Some [ {| symbols := Some [sym "a" (BrName "SURE_SPACE");
                                         sym "b" BrUnset] |} ];
     vertices := None |}.

(* ================================================================== *)
(** * Further vocabulary: the canvas log *)

Definition isFillRect (c : DrawCall) : bool :=
  match c with FillRect _ _ _ _ _ => true | _ => false end.

Definition isFillText (c : DrawCall) : bool :=
  match c with FillText _ _ _ _ _ => true | _ => false end.

(** The call that erases a region. *)
Definition eraseCall (imgW imgH : Z) (r : DrawRegion) : DrawCall :=
  FillRect White (rx (rectOf imgW imgH (dr_box r)))
    (ry (rectOf imgW imgH (dr_box r)))
    (rw (rectOf imgW imgH (dr_box r)))
    (rh (rectOf imgW imgH (dr_box r))).

(** A text call that starts at the left padding of the rectangle and
    whose line box, [lh] high, lies between the top padding and the
    bottom of the rectangle. *)
Definition textInside (rect : Rect) (pad lh : Z) (c : DrawCall) : Prop :=
  match c with
  | FillText style _ _ px py =>
      style = Black /\ px = rx rect + pad
      /\ ry rect + pad <= py /\ py + lh <= ry rect + rh rect
  | _ => True
  end.

(** A region one line of text does not fit into. *)
Definition flat : DrawRegion :=
  {| dr_text := str "Hello World"; dr_box := boxAt 20 20 300 11;
     translated := str "Hola Mundo" |}.

(** A region whose translated text fits at the start size. *)
Definition roomy : DrawRegion :=
  {| dr_text := str "Hello World"; dr_box := box2;
     translated := str "Hola Mundo" |}.

(** The rectangle, padding and text area [overlayTranslations] works
    with for a region. *)
Definition regionRect (imgW imgH : Z) (r : DrawRegion) : Rect :=
  rectOf imgW imgH (dr_box r).
Definition regionPad (imgW imgH : Z) (r : DrawRegion) : Z :=
  padOf (rw (regionRect imgW imgH r)) (rh (regionRect imgW imgH r)).
Definition regionMaxW (imgW imgH : Z) (r : DrawRegion) : Z :=
  maxWOf (rw (regionRect imgW imgH r)) (regionPad imgW imgH r).
Definition regionMaxH (imgW imgH : Z) (r : DrawRegion) : Z :=
  maxHOf (rh (regionRect imgW imgH r)) (regionPad imgW imgH r).

(** The call that erases the rectangle of a box. *)
Definition eraseBox (imgW imgH : Z) (box : list Pt) : DrawCall :=
  FillRect White (rx (rectOf imgW imgH box)) (ry (rectOf imgW imgH box))
    (rw (rectOf imgW imgH box)) (rh (rectOf imgW imgH box)).

(** A canvas on which every text has the same width. *)
Definition fixedMeasure (width : Z) (font : Z) (s : jsstring) : Q :=
  inject_Z width.

(** A paragraph with a full polygon whose only symbol is a space
    followed by a line break. *)
Definition blankParagraph : Paragraph :=
  {| words := Some [ {| symbols := Some [sym " " (BrName "LINE_BREAK")] |} ];
     vertices := Some [ Some {| vx := Some 0; vy := Some 0 |};
                        Some {| vx := Some 9; vy := Some 0 |};
                        Some {| vx := Some 9; vy := Some 9 |};
                        Some {| vx := Some 0; vy := Some 9 |} ] |}.

(** The translations a draw list carries. *)
Definition translations (l : list DrawRegion) : list jsstring :=
  List.map translated l.

(** The regions of [twoLines] in reading order. *)
Definition twoLinesSorted : list Region :=
  [ {| text := str "left"; box := boxAt 10 10 80 20 |};
    {| text := str "right"; box := boxAt 100 12 80 20 |};
    {| text := str "below"; box := boxAt 10 50 80 20 |} ].

(* ================================================================== *)
(** * google.ts and the route of app.ts, with their collaborators *)

Module Route.

(** What an awaited call comes to: the value it returns, or the error it
    throws, of which the route reads [err?.message] only. *)
Inductive Outcome (A : Type) :=
| Threw (message : option string)
| Returned (a : A).
Arguments Threw {A} message.
Arguments Returned {A} a.

Record Translation := { translatedText : option jsstring }.
Record TranslateResponse := { translations : option (list Translation) }.
Record TranslateRequest := {
  parent : string;
  contents : list jsstring;
  sourceLanguageCode : string;
  targetLanguageCode : string;
  mimeType : string
}.

Record TextAnnotation := { pages : option (list Page) }.
Record VisionResponse := { fullTextAnnotation : option TextAnnotation }.

(** What the route sends: a status with a text, or the PNG of the canvas
    (given by the calls made on it). *)
Inductive Response :=
| Status (code : Z) (body : string)
| Png (canvas : list DrawCall).

Section Server.

Variable Buffer : Type.
(** The two Google clients, the image decoder and the text measure of
    the canvas. *)
Variable documentTextDetection : Buffer -> Outcome VisionResponse.
Variable translateText : TranslateRequest -> Outcome TranslateResponse.
Variable loadImage : Buffer -> Outcome (Z * Z).
Variable measureText : Z -> jsstring -> Q.
Variable projectParent : string.

Definition ocrBuffer (buf : Buffer) : Outcome (option TextAnnotation) :=
  match documentTextDetection buf with
  | Threw m => Threw m
  | Returned res => Returned (fullTextAnnotation res)
  end.

(** [t.translatedText || '']. *)
Definition textOf (t : Translation) : jsstring :=
  match translatedText t with
  | Some s => if truthy s then s else []
  | None => []
  end.

Definition translateBatch (texts : list jsstring) (target_language : string)
  : Outcome (list jsstring) :=
  match texts with
  | [] => Returned []
  | _ :: _ =>
      match translateText {| parent := projectParent; contents := texts;
                             sourceLanguageCode := "en";
                             targetLanguageCode := target_language;
                             mimeType := "text/plain" |} with
      | Threw m => Threw m
      | Returned result =>
          Returned (List.map textOf (orElse (translations result) []))
      end
  end.

(** [overlayTranslations] of overlay.ts with its [loadImage]; the canvas
    has the size of the image.  Of the calls it makes only the decoder is
    given an outcome that may be an error: creating the canvas, drawing
    on it and encoding it are taken to return, with regions whose boxes
    hold four points as [extractRegions] builds them.  The font-fit loop
    never runs out of fuel ([renderAll_total]), so the last case does
    not arise. *)
Definition overlayBuffer (imgBuf : Buffer) (regions : list DrawRegion)
  : Outcome (list DrawCall) :=
  match loadImage imgBuf with
  | Threw m => Threw m
  | Returned (w, h) =>
      match overlayTranslations measureText w h regions with
      | Some calls => Returned calls
      | None => Threw None
      end
  end.

(** The body of the [try] after the upload check, over an annotation
    tree of the declared shape (lists without null entries). *)
Definition translateUpload (buf : Buffer) : Outcome (list DrawCall) :=
  match ocrBuffer buf with
  | Threw m => Threw m
  | Returned anno =>
      let pages := orElse (match anno with Some a => pages a | None => None end) [] in
      let regions := sortRegions (extractRegions pages) in
      match translateBatch (List.map text regions) "es" with
      | Threw m => Threw m
      | Returned translated => overlayBuffer buf (toDraw regions translated)
      end
  end.

(** The handler of [POST /translate-image] itself; [file] is
    [req.file?.buffer].  What is registered in front of it (the upload
    parser with its size limit and, in the copy kept beside the
    limiters, the rate limiters) answers before the handler runs and is
    not part of it. *)
Definition translateImageRoute (file : option Buffer) : Response :=
  match file with
  | None => Status 400 "No image uploaded"
  | Some buf =>
      match translateUpload buf with
      | Threw m => Status 500 (orElse m "Internal error"%string)
      | Returned out => Png out
      end
  end.

End Server.

End Route.

(* ================================================================== *)
(** * counter.js *)

Module Counter.

(** A JavaScript number as far as the counter needs it. *)
Inductive JsNumber := NaN | Num (z : Z).

(** [Math.min(a, b)] for an argument [a] that may be [undefined]:
    [undefined] converts to [NaN], which [Math.min] returns. *)
Definition Math_min2 (a : option Z) (b : Z) : JsNumber :=
  match a with
  | None => NaN
  | Some a => Num (Z.min a b)
  end.

(** The template [`${n}%`]. *)
Inductive Width := Percent (n : JsNumber).

(** The module's [count] and the values assigned to the width of the
    progress bar (the element with id 'progress-bar', which the source
    takes to be present), oldest first. *)
Record State := { count : Z; widths : list Width }.

Definition initial : State := {| count := 0; widths := [] |}.

(** [updateProgressBar(count)]: the parameter hides the module's
    [count]. *)
Definition updateProgressBar (arg : option Z) (st : State) : State :=
  {| count := count st;
     widths := widths st ++ [Percent (Math_min2 arg 100)] |}.

(** [incrementCount()]: it calls [updateProgressBar()] without an
    argument. *)
Definition incrementCount (st : State) : State :=
  updateProgressBar None {| count := count st + 5; widths := widths st |}.

Definition getCount (st : State) : Z := count st.

End Counter.

(* ================================================================== *)
(** * public/main.js *)

Module Client.

Record File := { file_name : string; file_type : string }.

(** A message for the error box: a text, or the template
    [`Server error (${res.status})`]. *)
Inductive Message := Text (s : string) | ServerError (status : Z).

(** [!msg]. *)
Definition falsy (m : Message) : bool :=
  match m with
  | Text s => String.eqb s ""
  | ServerError _ => false
  end.

(** What [outImg.src] and [origImg.src] hold. *)
Inductive Src := NoSrc | FileUrl (f : File) | BlobUrl (blob : nat).

(** The variable [currentFile] and the state of the elements the script
    writes to. *)
Record UI := {
  currentFile : option File;
  errorText : Message;
  errorHidden : bool;
  progressHidden : bool;
  translateDisabled : bool;
  origSrc : Src;
  outSrc : Src;
  dragover : bool
}.

Definition showError (msg : Message) (ui : UI) : UI :=
  if falsy msg then
    {| currentFile := currentFile ui; errorText := Text ""; errorHidden := true;
       progressHidden := progressHidden ui;
       translateDisabled := translateDisabled ui;
       origSrc := origSrc ui; outSrc := outSrc ui; dragover := dragover ui |}
  else
    {| currentFile := currentFile ui; errorText := msg; errorHidden := false;
       progressHidden := progressHidden ui;
       translateDisabled := translateDisabled ui;
       origSrc := origSrc ui; outSrc := outSrc ui; dragover := dragover ui |}.

Definition setLoading (active : bool) (ui : UI) : UI :=
  {| currentFile := currentFile ui; errorText := errorText ui;
     errorHidden := errorHidden ui;
     progressHidden := negb active;
     translateDisabled :=
       if active then true
       else match currentFile ui with Some _ => false | None => true end;
     origSrc := origSrc ui; outSrc := outSrc ui; dragover := dragover ui |}.

Definition setFile (file : option File) (ui : UI) : UI :=
  let ui := showError (Text "") ui in
  {| currentFile := file; errorText := errorText ui;
     errorHidden := errorHidden ui; progressHidden := progressHidden ui;
     translateDisabled := match file with Some _ => false | None => true end;
     origSrc := match file with Some f => FileUrl f | None => NoSrc end;
     outSrc := NoSrc; dragover := dragover ui |}.

Definition setDragover (b : bool) (ui : UI) : UI :=
  {| currentFile := currentFile ui; errorText := errorText ui;
     errorHidden := errorHidden ui; progressHidden := progressHidden ui;
     translateDisabled := translateDisabled ui;
     origSrc := origSrc ui; outSrc := outSrc ui; dragover := b |}.

Definition setOut (s : Src) (ui : UI) : UI :=
  {| currentFile := currentFile ui; errorText := errorText ui;
     errorHidden := errorHidden ui; progressHidden := progressHidden ui;
     translateDisabled := translateDisabled ui;
     origSrc := origSrc ui; outSrc := s; dragover := dragover ui |}.

(** [f.type.startsWith('image/')]. *)
Definition isImage (f : File) : bool := String.prefix "image/" (file_type f).

(** How the request of a click ends: [fetch], or the reading of the
    answer, rejects with an error (of which [err.message] is read), the
    server answers with a status that is not ok and a text, or it answers
    with the image. *)
Inductive FetchResult :=
| Rejected (message : string)
| NotOk (status : Z) (txt : string)
| Ok (blob : nat).

(** The events the script listens to; a click is split into what runs
    before the [await] and what runs after it. *)
Inductive Event :=
| DragOver
| DragLeave
| Drop (f : option File)
| Change (f : option File)
| Click
| Fetched (r : FetchResult).

(** [a || b] on messages. *)
Definition orMsg (a b : Message) : Message := if falsy a then b else a.

Definition handle (ui : UI) (e : Event) : UI :=
  match e with
  | DragOver => setDragover true ui
  | DragLeave => setDragover false ui
  | Drop f =>
      let ui := setDragover false ui in
      match f with
      | Some f' => if isImage f' then setFile (Some f') ui
                   else showError (Text "Please drop a valid image file.") ui
      | None => showError (Text "Please drop a valid image file.") ui
      end
  | Change f =>
      match f with
      | None => ui
      | Some f' => if isImage f' then setFile (Some f') ui
                   else showError (Text "Please choose an image file.") ui
      end
  | Click =>
      match currentFile ui with
      | None => showError (Text "Select an image first.") ui
      | Some _ => setLoading true ui
      end
  | Fetched r =>
      let ui :=
        match r with
        | Ok blob => setOut (BlobUrl blob) ui
        | NotOk status txt =>
            showError (orMsg (orMsg (Text txt) (ServerError status))
                         (Text "Translation failed.")) ui
        | Rejected message =>
            showError (orMsg (Text message) (Text "Translation failed.")) ui
        end in
      setLoading false ui
  end.

(** The state after a sequence of events. *)
Definition run (ui : UI) (events : list Event) : UI := fold_left handle events ui.

(** The state when the script has loaded: [currentFile] is [null]; the
    elements are as the page declares them. *)
Definition loaded (page : UI) : UI :=
  {| currentFile := None; errorText := errorText page;
     errorHidden := errorHidden page; progressHidden := progressHidden page;
     translateDisabled := translateDisabled page;
     origSrc := origSrc page; outSrc := outSrc page; dragover := dragover page |}.

End Client.

(* ================================================================== *)
(** * Sample collaborators and pages *)

(** A Vision answer without text, a translation service that is down and
    one that answers without translations, a decoder for 200 by 200
    images. *)
Definition noText (_ : unit) : Route.Outcome Route.VisionResponse :=
  Route.Returned {| Route.fullTextAnnotation := None |}.

Definition helloPages : list Page :=
  [ {| blocks := Some [ {| paragraphs := Some
         [ {| words := words helloWorld;
              vertices := Some [ Some {| vx := Some 10; vy := Some 10 |};
                                 Some {| vx := Some 90; vy := None |};
                                 Some {| vx := Some 90; vy := Some 30 |};
                                 None ] |} ] |} ] |} ].

Definition helloText (_ : unit) : Route.Outcome Route.VisionResponse :=
  Route.Returned
    {| Route.fullTextAnnotation := Some {| Route.pages := Some helloPages |} |}.

Definition serviceDown (_ : Route.TranslateRequest)
  : Route.Outcome Route.TranslateResponse :=
  Route.Threw (Some "UNAVAILABLE"%string).

Definition serviceSilent (_ : Route.TranslateRequest)
  : Route.Outcome Route.TranslateResponse :=
  Route.Returned {| Route.translations := None |}.

Definition decode200 (_ : unit) : Route.Outcome (Z * Z) :=
  Route.Returned (200, 200).

(** A page whose error box is hidden and empty, whose button is disabled
    and whose images are empty. *)
Definition freshPage : Client.UI :=
  {| Client.currentFile := None; Client.errorText := Client.Text "";
     Client.errorHidden := true; Client.progressHidden := true;
     Client.translateDisabled := true; Client.origSrc := Client.NoSrc;
     Client.outSrc := Client.NoSrc; Client.dragover := false |}.

Definition photo : Client.File :=
  {| Client.file_name := "menu.png"; Client.file_type := "image/png" |}.
Definition notes : Client.File :=
  {| Client.file_name := "notes.txt"; Client.file_type := "text/plain" |}.

(** The preview and the button follow the selected file. *)
Definition followsFile (ui : Client.UI) : Prop :=
  Client.origSrc ui
  = match Client.currentFile ui with
    | Some f => Client.FileUrl f
    | None => Client.NoSrc
    end
  /\ (Client.translateDisabled ui = false -> Client.currentFile ui <> None).

(* ------------------------------------------------------------------ *)
(** * Strings: trimming and the two replacements *)

Lemma dropWhile_split {A} (p : A -> bool) (l : list A) :
  exists a, l = a ++ dropWhile p l /\ forallb p a = true.
Proof.
  induction l as [|c r IH]; simpl.
  - exists []. split; reflexivity.
  - destruct (p c) eqn:Hc.
    + destruct IH as [a [Ha Hp]]. exists (c :: a). simpl.
      rewrite Hc, Hp. split; [f_equal; exact Ha | reflexivity].
    + exists []. split; reflexivity.
Qed.

Lemma dropWhile_head {A} (p : A -> bool) (l : list A) c r :
  dropWhile p l = c :: r -> p c = false.
Proof.
  induction l as [|d l IH]; simpl; [discriminate|].
  destruct (p d) eqn:Hd; [exact IH|].
  intros H. injection H as -> _. exact Hd.
Qed.

(** [trim] cuts a whitespace prefix and a whitespace suffix off. *)
Lemma trim_split (s : jsstring) :
  exists a b, s = a ++ trim s ++ b
              /\ forallb isSpace a = true /\ forallb isSpace b = true.
Proof.
  unfold trim, trimEnd, trimStart.
  destruct (dropWhile_split isSpace s) as [a [Ha Hpa]].
  destruct (dropWhile_split isSpace (rev (dropWhile isSpace s))) as [b [Hb Hpb]].
  exists a, (rev b). split; [|split].
  - rewrite <- rev_app_distr, <- Hb, rev_involutive. exact Ha.
  - exact Hpa.
  - rewrite forallb_forall in *. intros c Hc. apply Hpb.
    apply in_rev. exact Hc.
Qed.

Lemma trim_no_leading_space (s : jsstring) c r :
  trim s = c :: r -> isSpace c = false.
Proof.
  unfold trim, trimEnd, trimStart. intros H.
  destruct (dropWhile_split isSpace (rev (dropWhile isSpace s))) as [b [Hb _]].
  apply (f_equal (@rev _)) in Hb. rewrite rev_involutive, rev_app_distr, H in Hb.
  simpl in Hb. apply (dropWhile_head isSpace s c (r ++ rev b)). exact Hb.
Qed.

Lemma trim_no_trailing_space (s : jsstring) c r :
  rev (trim s) = c :: r -> isSpace c = false.
Proof.
  unfold trim, trimEnd. rewrite rev_involutive.
  apply dropWhile_head.
Qed.

Lemma replaceBlanksNL_spec (s : jsstring) :
  replaceBlanksNL s = dropBlanksBeforeNL s
  /\ startsWithNL (dropWhile isBlank s) = startsWithNL (dropBlanksBeforeNL s).
Proof.
  induction s as [|c r [IH1 IH2]]; simpl; [split; reflexivity|].
  fold (dropBlanksBeforeNL r). rewrite IH1, IH2.
  destruct (isBlank c) eqn:Hb; simpl.
  - destruct (startsWithNL (dropBlanksBeforeNL r)) eqn:Hn; simpl.
    + split; [reflexivity | congruence].
    + split; [reflexivity|].
      unfold isBlank in Hb. unfold NL.
      destruct (N.eqb_spec c 10); [subst c; discriminate | exact IH2].
  - split; reflexivity.
Qed.

Lemma dropBlanksBeforeNL_clean (s : jsstring) :
  noBlankBeforeNL (dropBlanksBeforeNL s) = true.
Proof.
  induction s as [|c r IH]; simpl; [reflexivity|].
  fold (dropBlanksBeforeNL r).
  destruct (isBlank c && startsWithNL (dropBlanksBeforeNL r)) eqn:E.
  - exact IH.
  - simpl. rewrite E, IH. reflexivity.
Qed.

Lemma dropBlanksBeforeNL_keeps (s : jsstring) :
  filter (fun c => negb (isBlank c)) (dropBlanksBeforeNL s)
  = filter (fun c => negb (isBlank c)) s.
Proof.
  induction s as [|c r IH]; simpl; [reflexivity|].
  fold (dropBlanksBeforeNL r).
  destruct (isBlank c) eqn:Hb; simpl.
  - destruct (startsWithNL (dropBlanksBeforeNL r)); simpl;
      [|rewrite Hb; simpl]; exact IH.
  - rewrite Hb. simpl. f_equal. exact IH.
Qed.

Lemma dropBlanksBeforeNL_id (s : jsstring) :
  noBlankBeforeNL s = true -> dropBlanksBeforeNL s = s.
Proof.
  induction s as [|c r IH]; simpl; [reflexivity|].
  fold (dropBlanksBeforeNL r). intros H.
  apply andb_true_iff in H. destruct H as [H1 H2].
  rewrite (IH H2). apply negb_true_iff in H1. rewrite H1. reflexivity.
Qed.

(* ------------------------------------------------------------------ *)
(** * Break codes *)

Lemma appendBreak_resolve (out : jsstring) (br : BreakCode) :
  appendBreak out br = out ++ sepOf (resolve br).
Proof.
  unfold appendBreak, resolve.
  destruct br as [|name|n]; simpl.
  - rewrite app_nil_r. reflexivity.
  - destruct (String.eqb_spec name "SPACE") as [->|_]; simpl; [reflexivity|].
    destruct (String.eqb_spec name "EOL_SURE_SPACE") as [->|_]; simpl;
      [reflexivity|].
    destruct (String.eqb_spec name "LINE_BREAK") as [->|_]; simpl;
      [reflexivity | rewrite app_nil_r; reflexivity].
  - destruct (Z.eqb_spec n 1) as [->|_]; simpl; [reflexivity|].
    destruct (Z.eqb_spec n 3) as [->|_]; simpl; [reflexivity|].
    destruct (Z.eqb_spec n 5) as [->|_]; simpl;
      [reflexivity | rewrite app_nil_r; reflexivity].
Qed.

(** Apart from SURE_SPACE and 2 the code follows the table. *)
Lemma resolve_table (br : BreakCode) :
  br <> BrName "SURE_SPACE" -> br <> BrNum 2 ->
  resolve br = spec_resolve br.
Proof.
  intros H1 H2. unfold resolve, spec_resolve.
  destruct br as [|name|n]; simpl; [reflexivity| |].
  - destruct (String.eqb_spec name "SURE_SPACE") as [->|_];
      [contradiction|].
    destruct (String.eqb name "SPACE"); [reflexivity|].
    destruct (String.eqb name "EOL_SURE_SPACE"); [reflexivity|].
    destruct (String.eqb name "HYPHEN") eqn:Hh; [|reflexivity].
    apply String.eqb_eq in Hh. subst name. reflexivity.
  - destruct (Z.eqb_spec n 2) as [->|_]; [contradiction|].
    destruct (n =? 1); [reflexivity|].
    destruct (n =? 3); [reflexivity|].
    destruct (Z.eqb_spec n 4) as [->|_]; reflexivity.
Qed.

(** C1 (the code at the failing inputs): after a symbol whose break code
    is SURE_SPACE, or its numeric form 2, [getParagraphText] appends
    nothing, where the mapping table asks for one space; the table's
    other rows are the code's ([resolve_table]). *)
Theorem C1_sure_space_gets_no_separator :
  (forall out, appendBreak out (BrName "SURE_SPACE") = out)
  /\ (forall out, appendBreak out (BrNum 2) = out)
  /\ sepOf (spec_resolve (BrName "SURE_SPACE")) = [SP]
  /\ sepOf (spec_resolve (BrNum 2)) = [SP]
  /\ getParagraphText
       {| words := Some [ {| symbols := Some
            [ {| sym_text := Some (str "a"); sym_break := BrName "SURE_SPACE" |};
              {| sym_text := Some (str "b"); sym_break := BrUnset |} ] |} ];
          vertices := None |} = str "ab".
Proof.
  repeat split; reflexivity.
Qed.

(* ------------------------------------------------------------------ *)
(** * Paragraph reconstruction *)

Lemma appendSymbol_fold (syms : list Symbol) (out : jsstring) :
  fold_left appendSymbol syms out = out ++ flat_map symbolText syms.
Proof.
  revert out. induction syms as [|s r IH]; intros out; simpl.
  - rewrite app_nil_r. reflexivity.
  - rewrite IH. unfold appendSymbol, symbolText.
    rewrite appendBreak_resolve, <- !app_assoc. reflexivity.
Qed.

Lemma appendWord_fold (ws : list Word) (out : jsstring) :
  fold_left appendWord ws out
  = out ++ flat_map symbolText (flat_map (fun w => orElse (symbols w) []) ws).
Proof.
  revert out. induction ws as [|w r IH]; intros out; simpl.
  - rewrite app_nil_r. reflexivity.
  - rewrite IH. unfold appendWord. rewrite appendSymbol_fold.
    rewrite flat_map_app, <- app_assoc. reflexivity.
Qed.

Lemma rawParagraphText_flat (pg : Paragraph) :
  rawParagraphText pg = flat_map symbolText (allSymbols pg).
Proof.
  unfold rawParagraphText, allSymbols. rewrite appendWord_fold. reflexivity.
Qed.

Lemma symbolText_table (s : Symbol) :
  notSureSpace s -> symbolText s = spec_symbolText s.
Proof.
  intros [H1 H2]. unfold symbolText, spec_symbolText.
  rewrite (resolve_table _ H1 H2). reflexivity.
Qed.

Lemma flat_symbolText_table (syms : list Symbol) :
  Forall notSureSpace syms ->
  flat_map symbolText syms = flat_map spec_symbolText syms.
Proof.
  induction syms as [|s r IH]; intros H; [reflexivity|].
  inversion H as [|? ? Hs Hr]; subst. cbn [flat_map].
  rewrite (symbolText_table s Hs), (IH Hr). reflexivity.
Qed.

(** C6, as amended: for a paragraph none of whose symbols has the break
    code SURE_SPACE or 2, the reconstructed text is the concatenation,
    over its symbols in tree order, of each symbol's raw text followed by
    the separator the mapping table resolves its break code to (one space
    for SPACE, one newline for NEWLINE, nothing for NONE); from it the
    runs of spaces and tabs directly in front of a newline are deleted
    (none is left, nothing else is touched) and the result is trimmed of
    the whitespace at both ends.  Example 1 gives "Hello World". *)
Theorem C6_paragraph_reconstruction (pg : Paragraph) :
  Forall notSureSpace (allSymbols pg) ->
  rawParagraphText pg = flat_map spec_symbolText (allSymbols pg)
  /\ getParagraphText pg
     = trim (dropBlanksBeforeNL (flat_map spec_symbolText (allSymbols pg)))
  /\ noBlankBeforeNL (replaceBlanksNL (rawParagraphText pg)) = true
  /\ filter (fun c => negb (isBlank c)) (replaceBlanksNL (rawParagraphText pg))
     = filter (fun c => negb (isBlank c)) (rawParagraphText pg)
  /\ (exists a b,
        replaceBlanksNL (rawParagraphText pg) = a ++ getParagraphText pg ++ b
        /\ forallb isSpace a = true /\ forallb isSpace b = true)
  /\ match getParagraphText pg with
     | c :: _ => isSpace c = false
     | [] => True
     end
  /\ match rev (getParagraphText pg) with
     | c :: _ => isSpace c = false
     | [] => True
     end
  /\ (forall s, spec_symbolText s
                = orElse (sym_text s) []
                  ++ match spec_resolve (sym_break s) with
                     | SPACE => str " "
                     | NEWLINE => [NL]
                     | NONE => []
                     end)
  /\ (forall c, isBlank c = true <-> c = SP \/ c = 9%N)
  /\ getParagraphText helloWorld = str "Hello World".
Proof.
  intros Htable.
  assert (Hraw : rawParagraphText pg = flat_map spec_symbolText (allSymbols pg))
    by (rewrite rawParagraphText_flat; apply flat_symbolText_table, Htable).
  unfold getParagraphText.
  destruct (replaceBlanksNL_spec (rawParagraphText pg)) as [E _].
  split; [|split; [|split; [|split; [|split; [|split; [|split; [|split; [|split]]]]]]]].
  - exact Hraw.
  - rewrite E, Hraw. reflexivity.
  - rewrite E. apply dropBlanksBeforeNL_clean.
  - rewrite E. apply dropBlanksBeforeNL_keeps.
  - apply trim_split.
  - destruct (trim _) as [|c r] eqn:Ht; [exact I|].
    exact (trim_no_leading_space _ _ _ Ht).
  - destruct (rev (trim _)) as [|c r] eqn:Ht; [exact I|].
    exact (trim_no_trailing_space _ _ _ Ht).
  - intros s. unfold spec_symbolText.
    destruct (spec_resolve (sym_break s)); reflexivity.
  - intros c. unfold isBlank, SP. rewrite orb_true_iff, !N.eqb_eq. reflexivity.
  - reflexivity.
Qed.

Lemma C6_paragraph_reconstruction_witness :
  getParagraphText helloWorld
  = trim (dropBlanksBeforeNL (flat_map spec_symbolText (allSymbols helloWorld)))
  /\ rawParagraphText helloWorld = str "Hello World".
Proof.
  split; [|reflexivity].
  apply (C6_paragraph_reconstruction helloWorld).
  repeat constructor; discriminate.
Defined.

(** C6 fails as stated: a no-break space in front of a newline is
    horizontal whitespace and stays, because only spaces and tabs are
    deleted there; and after a symbol with the break code SURE_SPACE no
    space is appended, where the table resolves the code to SPACE. *)
Lemma C6_counterexample :
  getParagraphText nbspParagraph <> spec_reconstruct nbspParagraph
  /\ getParagraphText nbspParagraph = [97%N; 160%N; NL; 98%N]
  /\ spec_reconstruct nbspParagraph = [97%N; NL; 98%N]
  /\ getParagraphText sureSpaceParagraph <> spec_reconstruct sureSpaceParagraph
  /\ getParagraphText sureSpaceParagraph = str "ab"
  /\ spec_reconstruct sureSpaceParagraph = str "a b".
Proof.
  split; [discriminate|]. split; [reflexivity|]. split; [reflexivity|].
  split; [discriminate|]. split; reflexivity.
Qed.

(* ------------------------------------------------------------------ *)
(** * Region extraction *)

Lemma pushParagraph_regionOf (regions : list Region) (pg : Paragraph) :
  pushParagraph regions pg = regions ++ optList (regionOf pg).
Proof.
  unfold pushParagraph, regionOf.
  destruct (truthy (getParagraphText pg) && _); simpl;
    [reflexivity | rewrite app_nil_r; reflexivity].
Qed.

Lemma pushParagraph_fold (pgs : list Paragraph) (regions : list Region) :
  fold_left pushParagraph pgs regions
  = regions ++ flat_map (fun pg => optList (regionOf pg)) pgs.
Proof.
  revert regions. induction pgs as [|pg r IH]; intros regions; simpl.
  - rewrite app_nil_r. reflexivity.
  - rewrite IH, pushParagraph_regionOf, <- app_assoc. reflexivity.
Qed.

Lemma pushBlock_fold (bs : list Block) (regions : list Region) :
  fold_left pushBlock bs regions
  = regions ++ flat_map (fun pg => optList (regionOf pg))
                 (flat_map (fun b => orElse (paragraphs b) []) bs).
Proof.
  revert regions. induction bs as [|b r IH]; intros regions; simpl.
  - rewrite app_nil_r. reflexivity.
  - rewrite IH. unfold pushBlock. rewrite pushParagraph_fold.
    rewrite flat_map_app, <- app_assoc. reflexivity.
Qed.

Lemma pushPage_fold (ps : list Page) (regions : list Region) :
  fold_left pushPage ps regions
  = regions ++ flat_map (fun pg => optList (regionOf pg)) (allParagraphs ps).
Proof.
  revert regions. induction ps as [|p r IH]; intros regions; simpl.
  - rewrite app_nil_r. reflexivity.
  - rewrite IH. unfold pushPage. rewrite pushBlock_fold.
    rewrite flat_map_app, <- app_assoc. reflexivity.
Qed.

Lemma extractRegions_flat (pages : list Page) :
  extractRegions pages
  = flat_map (fun pg => optList (regionOf pg)) (allParagraphs pages).
Proof.
  unfold extractRegions. apply pushPage_fold.
Qed.

Lemma regionOf_cases (pg : Paragraph) :
  (regionOf pg = Some {| text := getParagraphText pg;
                         box := List.map toPt (orElse (vertices pg) []) |}
   /\ getParagraphText pg <> []
   /\ (4 <= List.length (orElse (vertices pg) []))%nat)
  \/ (regionOf pg = None
      /\ (getParagraphText pg = []
          \/ (List.length (orElse (vertices pg) []) < 4)%nat)).
Proof.
  unfold regionOf. rewrite length_map.
  destruct (getParagraphText pg) as [|c t]; cbn [truthy andb];
    [right; split; [reflexivity | left; reflexivity]|].
  destruct (Nat.leb_spec 4 (List.length (orElse (vertices pg) []))).
  - left. split; [reflexivity | split; [discriminate | assumption]].
  - right. split; [reflexivity | right; assumption].
Qed.

(** Every region the route builds has a non-empty text and at least four
    points. *)
Lemma extractRegions_box (pages : list Page) (r : Region) :
  In r (extractRegions pages) ->
  text r <> [] /\ (4 <= List.length (box r))%nat.
Proof.
  rewrite extractRegions_flat, in_flat_map. intros [pg [_ Hr]].
  destruct (regionOf_cases pg) as [[E [Ht Hn]] | [E _]];
    rewrite E in Hr; simpl in Hr; [|contradiction].
  destruct Hr as [<-|[]]. simpl. rewrite length_map. split; assumption.
Qed.

(** C8: the regions are, in pre-order of the tree, the regions of the
    paragraphs that pass the filter; a paragraph passes exactly when its
    reconstructed (trimmed) text is non-empty and its polygon has at least
    four vertices, and its region then carries that text and one point
    per vertex, a missing vertex or coordinate counting as 0.  Every
    function involved is total: no geometry makes the extraction fail. *)
Theorem C8_region_filter (pages : list Page) :
  extractRegions pages
  = flat_map (fun pg => optList (regionOf pg)) (allParagraphs pages)
  /\ (forall regions pg,
        pushParagraph regions pg = regions ++ optList (regionOf pg))
  /\ (forall pg,
        (regionOf pg = Some {| text := getParagraphText pg;
                               box := List.map toPt (orElse (vertices pg) []) |}
         /\ getParagraphText pg <> []
         /\ (4 <= List.length (orElse (vertices pg) []))%nat)
        \/ (regionOf pg = None
            /\ (getParagraphText pg = []
                \/ (List.length (orElse (vertices pg) []) < 4)%nat)))
  /\ toPt None = {| x := 0; y := 0 |}
  /\ (forall a b, toPt (Some {| vx := a; vy := b |})
                  = {| x := match a with Some n => n | None => 0 end;
                       y := match b with Some n => n | None => 0 end |}).
Proof.
  split; [apply extractRegions_flat|].
  split; [apply pushParagraph_regionOf|].
  split; [apply regionOf_cases|].
  split; [reflexivity|].
  intros a b. reflexivity.
Qed.

(* ------------------------------------------------------------------ *)
(** * The rectangle of a region *)

Lemma fold_min_spec (l : list Z) (a : Z) :
  In (fold_left Z.min l a) (a :: l)
  /\ forall v, In v (a :: l) -> fold_left Z.min l a <= v.
Proof.
  revert a. induction l as [|b l IH]; intros a; simpl.
  - split; [left; reflexivity | intros v [<-|[]]; lia].
  - destruct (IH (Z.min a b)) as [Hin Hle]. split.
    + destruct Hin as [E|Hin]; [|right; right; exact Hin].
      rewrite <- E. destruct (Z.min_spec a b) as [[_ ->]|[_ ->]]; auto.
    + intros v Hv.
      assert (H0 : fold_left Z.min l (Z.min a b) <= Z.min a b)
        by (apply Hle; left; reflexivity).
      destruct Hv as [<-|[<-|Hv]]; [lia | lia | apply Hle; right; exact Hv].
Qed.

Lemma fold_max_spec (l : list Z) (a : Z) :
  In (fold_left Z.max l a) (a :: l)
  /\ forall v, In v (a :: l) -> v <= fold_left Z.max l a.
Proof.
  revert a. induction l as [|b l IH]; intros a; simpl.
  - split; [left; reflexivity | intros v [<-|[]]; lia].
  - destruct (IH (Z.max a b)) as [Hin Hle]. split.
    + destruct Hin as [E|Hin]; [|right; right; exact Hin].
      rewrite <- E. destruct (Z.max_spec a b) as [[_ ->]|[_ ->]]; auto.
    + intros v Hv.
      assert (H0 : Z.max a b <= fold_left Z.max l (Z.max a b))
        by (apply Hle; left; reflexivity).
      destruct Hv as [<-|[<-|Hv]]; [lia | lia | apply Hle; right; exact Hv].
Qed.

Lemma Math_min_isMin (l : list Z) : l <> [] -> isMin (Math_min l) l.
Proof.
  destruct l as [|a l]; [contradiction|]. intros _. apply fold_min_spec.
Qed.

Lemma Math_max_isMax (l : list Z) : l <> [] -> isMax (Math_max l) l.
Proof.
  destruct l as [|a l]; [contradiction|]. intros _. apply fold_max_spec.
Qed.

Lemma Math_min_le_max (l : list Z) : l <> [] -> Math_min l <= Math_max l.
Proof.
  intros H. destruct (Math_min_isMin l H) as [Hin _].
  destruct (Math_max_isMax l H) as [_ Hle]. apply Hle. exact Hin.
Qed.

Lemma map_nonempty {A B} (f : A -> B) (l : list A) : l <> [] -> List.map f l <> [].
Proof.
  destruct l; [contradiction | discriminate].
Qed.

(** C2, as amended: on an image of non-negative size a non-empty polygon
    gets the rectangle x = max(0, min of polygon x), y = max(0, min of
    polygon y), w = max(1, clamp(max of polygon x, 0, imgW) - x),
    h = max(1, clamp(max of polygon y, 0, imgH) - y); its width and height
    are always those of the specification, and the whole rectangle is the
    specification's when min x <= imgW and min y <= imgH.  The polygon of
    Example 2 on a 200 by 200 image gets (0, 0, 100, 30). *)
Theorem C2_rect_derivation (imgW imgH : Z) (box : list Pt) :
  0 <= imgW -> 0 <= imgH -> box <> [] ->
  isMin (Math_min (List.map x box)) (List.map x box)
  /\ isMin (Math_min (List.map y box)) (List.map y box)
  /\ isMax (Math_max (List.map x box)) (List.map x box)
  /\ isMax (Math_max (List.map y box)) (List.map y box)
  /\ rx (rectOf imgW imgH box) = Z.max 0 (Math_min (List.map x box))
  /\ ry (rectOf imgW imgH box) = Z.max 0 (Math_min (List.map y box))
  /\ rw (rectOf imgW imgH box)
     = Z.max 1 (clamp (Math_max (List.map x box)) 0 imgW - rx (rectOf imgW imgH box))
  /\ rh (rectOf imgW imgH box)
     = Z.max 1 (clamp (Math_max (List.map y box)) 0 imgH - ry (rectOf imgW imgH box))
  /\ rw (rectOf imgW imgH box) = rw (spec_rect imgW imgH box)
  /\ rh (rectOf imgW imgH box) = rh (spec_rect imgW imgH box)
  /\ (Math_min (List.map x box) <= imgW -> Math_min (List.map y box) <= imgH ->
      rectOf imgW imgH box = spec_rect imgW imgH box)
  /\ rectOf 200 200 box2 = {| rx := 0; ry := 0; rw := 100; rh := 30 |}.
Proof.
  intros HW HH Hbox.
  pose proof (Math_min_le_max _ (map_nonempty x box Hbox)) as Hx.
  pose proof (Math_min_le_max _ (map_nonempty y box Hbox)) as Hy.
  split; [apply Math_min_isMin, map_nonempty, Hbox|].
  split; [apply Math_min_isMin, map_nonempty, Hbox|].
  split; [apply Math_max_isMax, map_nonempty, Hbox|].
  split; [apply Math_max_isMax, map_nonempty, Hbox|].
  unfold rectOf, spec_rect, clamp; simpl.
  repeat split; try lia.
  intros H1 H2. f_equal; lia.
Qed.

Lemma C2_rect_derivation_witness :
  rectOf 200 200 (boxAt 20 40 60 10) = spec_rect 200 200 (boxAt 20 40 60 10)
  /\ rectOf 200 200 (boxAt 20 40 60 10) = {| rx := 20; ry := 40; rw := 60; rh := 10 |}.
Proof.
  split; [|reflexivity].
  apply (C2_rect_derivation 200 200 (boxAt 20 40 60 10));
    [lia | lia | discriminate | vm_compute; discriminate | vm_compute; discriminate].
Defined.

(** C2 fails as stated: a polygon whose least x exceeds the image width
    keeps that x, where the stated clamp would give the image width. *)
Lemma C2_counterexample :
  rectOf 200 200 farBox <> spec_rect 200 200 farBox
  /\ rx (rectOf 200 200 farBox) = 300
  /\ rx (spec_rect 200 200 farBox) = 200.
Proof.
  split; [discriminate | split; reflexivity].
Qed.

(* ------------------------------------------------------------------ *)
(** * Sorting into reading order *)

Section SortFacts.

Context {A : Type} (cmp : A -> A -> Z).

Lemma insert_perm (a : A) (l : list A) : Permutation (insert cmp a l) (a :: l).
Proof.
  induction l as [|b r IH]; simpl; [apply Permutation_refl|].
  destruct (cmp a b <=? 0); [apply Permutation_refl|].
  eapply perm_trans; [apply perm_skip; exact IH | apply perm_swap].
Qed.

Lemma sort_perm (l : list A) : Permutation (sort cmp l) l.
Proof.
  induction l as [|a r IH]; simpl; [constructor|].
  eapply perm_trans; [apply insert_perm | apply perm_skip; exact IH].
Qed.

(** The comparator is antisymmetric, and consistent on the list [U]. *)
Hypothesis cmp_anti : forall a b, cmp b a = - cmp a b.
Variable U : list A.
Hypothesis cmp_trans : forall a b c, In a U -> In b U -> In c U ->
  cmp a b <= 0 -> cmp b c <= 0 -> cmp a c <= 0.

Lemma insert_ordered (a : A) (l : list A) :
  In a U -> incl l U ->
  ForallOrdPairs (fun p q => cmp p q <= 0) l ->
  ForallOrdPairs (fun p q => cmp p q <= 0) (insert cmp a l).
Proof.
  intros Ha. induction l as [|b r IH]; intros Hl Hs; simpl.
  - constructor; constructor.
  - inversion Hs as [|? ? Hb Hr]; subst.
    assert (HbU : In b U) by (apply Hl; left; reflexivity).
    assert (HrU : incl r U) by (intros z Hz; apply Hl; right; exact Hz).
    destruct (Z.leb_spec (cmp a b) 0) as [Hab|Hab].
    + constructor; [|exact Hs].
      constructor; [exact Hab|].
      rewrite Forall_forall in *. intros z Hz.
      apply (cmp_trans a b z); auto.
    + constructor; [|apply IH; assumption].
      rewrite Forall_forall in *. intros z Hz.
      apply (Permutation_in _ (insert_perm a r)) in Hz.
      destruct Hz as [<-|Hz]; [rewrite cmp_anti; lia | apply Hb; exact Hz].
Qed.

Lemma sort_ordered (l : list A) :
  incl l U -> ForallOrdPairs (fun p q => cmp p q <= 0) (sort cmp l).
Proof.
  induction l as [|a r IH]; intros Hl; simpl; [constructor|].
  apply insert_ordered.
  - apply Hl. left. reflexivity.
  - intros z Hz. apply (Permutation_in _ (sort_perm r)) in Hz.
    apply Hl. right. exact Hz.
  - apply IH. intros z Hz. apply Hl. right. exact Hz.
Qed.

Lemma insert_tied (t a : A) (l : list A) :
  In t U -> In a U -> incl l U ->
  filter (fun b => cmp t b =? 0) (insert cmp a l)
  = filter (fun b => cmp t b =? 0) (a :: l).
Proof.
  intros Ht Ha. induction l as [|b r IH]; intros Hl; [reflexivity|].
  cbn [insert].
  destruct (Z.leb_spec (cmp a b) 0) as [Hab|Hab]; [reflexivity|].
  assert (HbU : In b U) by (apply Hl; left; reflexivity).
  cbn [filter]. rewrite IH by (intros z Hz; apply Hl; right; exact Hz).
  cbn [filter].
  destruct (Z.eqb_spec (cmp t a) 0) as [Ea|Ea];
    destruct (Z.eqb_spec (cmp t b) 0) as [Eb|Eb]; try reflexivity.
  exfalso.
  assert (cmp a t <= 0) by (rewrite cmp_anti; lia).
  assert (cmp t b <= 0) by lia.
  pose proof (cmp_trans a t b Ha Ht HbU). lia.
Qed.

Lemma sort_stable (t : A) (l : list A) :
  In t U -> incl l U ->
  filter (fun b => cmp t b =? 0) (sort cmp l) = filter (fun b => cmp t b =? 0) l.
Proof.
  intros Ht. induction l as [|a r IH]; intros Hl; [reflexivity|].
  cbn [sort fold_right]. fold (sort cmp r).
  rewrite insert_tied.
  - cbn [filter]. rewrite IH by (intros z Hz; apply Hl; right; exact Hz).
    reflexivity.
  - exact Ht.
  - apply Hl. left. reflexivity.
  - intros z Hz. apply (Permutation_in _ (sort_perm r)) in Hz.
    apply Hl. right. exact Hz.
Qed.

End SortFacts.

Lemma compareRegions_anti (a b : Region) :
  compareRegions b a = - compareRegions a b.
Proof.
  unfold compareRegions.
  replace (topY b - topY a) with (- (topY a - topY b)) by lia.
  rewrite Z.abs_opp.
  destruct (Z.abs (topY a - topY b) >? Y_TOLERANCE); lia.
Qed.

Lemma compareRegions_order (a b : Region) :
  compareRegions a b <= 0 <-> inReadingOrder a b.
Proof.
  unfold compareRegions, inReadingOrder.
  destruct (Z.abs (topY a - topY b) >? Y_TOLERANCE); lia.
Qed.

Lemma inReadingOrderb_iff (a b : Region) :
  inReadingOrderb a b = true <-> inReadingOrder a b.
Proof.
  unfold inReadingOrderb, inReadingOrder.
  destruct (Z.abs (topY a - topY b) >? Y_TOLERANCE); apply Z.leb_le.
Qed.

Lemma readingOrderedb_iff (l : list Region) :
  readingOrderedb l = true <-> readingOrdered l.
Proof.
  unfold readingOrdered. induction l as [|a r IH]; simpl.
  - split; [constructor | reflexivity].
  - rewrite andb_true_iff, IH, forallb_forall. split.
    + intros [H1 H2]. constructor; [|exact H2].
      apply Forall_forall. intros z Hz. apply inReadingOrderb_iff, H1, Hz.
    + intros H. inversion H as [|? ? H1 H2]; subst. split; [|exact H2].
      intros z Hz. apply inReadingOrderb_iff.
      rewrite Forall_forall in H1. apply H1, Hz.
Qed.

Lemma sortRegions_perm (regions : list Region) :
  Permutation (sortRegions regions) regions.
Proof. apply sort_perm. Qed.

(** No order of the three slanted regions satisfies the pairwise
    requirement, whatever the sorting routine does: the requirement puts
    "alpha" before "beta", "beta" before "gamma" and "gamma" before
    "alpha". *)
Lemma slanted_has_no_reading_order (out : list Region) :
  Permutation out slanted -> ~ readingOrdered out.
Proof.
  intros HP Hord. apply readingOrderedb_iff in Hord.
  pose proof (Permutation_length HP) as HL.
  destruct out as [|p [|q [|r [|? ?]]]]; try discriminate HL.
  assert (Hp : In p slanted) by (apply (Permutation_in _ HP); simpl; auto).
  assert (Hq : In q slanted) by (apply (Permutation_in _ HP); simpl; auto).
  assert (Hr : In r slanted) by (apply (Permutation_in _ HP); simpl; auto).
  apply Permutation_sym in HP.
  assert (H1 : In (nth 0 slanted p) [p; q; r])
    by (apply (Permutation_in _ HP); simpl; auto).
  assert (H2 : In (nth 1 slanted p) [p; q; r])
    by (apply (Permutation_in _ HP); simpl; auto).
  assert (H3 : In (nth 2 slanted p) [p; q; r])
    by (apply (Permutation_in _ HP); simpl; auto).
  clear HP HL.
  simpl in Hp, Hq, Hr.
  destruct Hp as [<-|[<-|[<-|[]]]];
    destruct Hq as [<-|[<-|[<-|[]]]];
    destruct Hr as [<-|[<-|[<-|[]]]];
    try (vm_compute in Hord; discriminate Hord);
    simpl in H1, H2, H3;
    repeat match goal with
           | H : _ \/ _ |- _ => destruct H
           | H : False |- _ => destruct H
           end;
    discriminate.
Qed.

(** C3, as amended: sorting regions with non-empty polygons returns a
    permutation of them, with
    topY and leftX the least y and x of a region's polygon and a
    tolerance of 6 pixels; when the comparator is consistent on the input
    (its "not after" relation is transitive there), any two regions a
    before b of the output are in ascending topY order if their topY
    differ by more than 6 and in ascending leftX order otherwise, and the
    regions the comparator ties with a given one keep their input
    order. *)
Theorem C3_sort_reading_order (regions : list Region) :
  Forall (fun r => box r <> []) regions ->
  consistentOn regions ->
  Permutation (sortRegions regions) regions
  /\ readingOrdered (sortRegions regions)
  /\ (forall a, In a regions ->
        filter (tiedWith a) (sortRegions regions) = filter (tiedWith a) regions)
  /\ Y_TOLERANCE = 6
  /\ (forall a b, inReadingOrder a b <->
        (Z.abs (topY a - topY b) > 6 /\ topY a < topY b)
        \/ (Z.abs (topY a - topY b) <= 6 /\ leftX a <= leftX b))
  /\ (forall r, In r regions ->
        isMin (topY r) (List.map y (box r))
        /\ isMin (leftX r) (List.map x (box r))).
Proof.
  intros Hbox Hcons.
  split; [apply sortRegions_perm|].
  split.
  { unfold readingOrdered, sortRegions.
    pose proof (sort_ordered compareRegions compareRegions_anti regions Hcons
                  regions (incl_refl _)) as H.
    induction H as [|a l Ha Hl IH]; constructor; [|exact IH].
    eapply Forall_impl; [|exact Ha]. intros b. apply compareRegions_order. }
  split.
  { intros a Ha. unfold tiedWith, sortRegions.
    apply (sort_stable compareRegions compareRegions_anti regions Hcons);
      [exact Ha | apply incl_refl]. }
  split; [reflexivity|].
  split.
  { intros a b. unfold inReadingOrder, Y_TOLERANCE.
    destruct (Z.gtb_spec (Z.abs (topY a - topY b)) 6); lia. }
  intros r Hr. rewrite Forall_forall in Hbox.
  split; apply Math_min_isMin, map_nonempty, Hbox, Hr.
Qed.

Lemma C3_sort_reading_order_witness :
  readingOrdered (sortRegions twoLines)
  /\ List.map text (sortRegions twoLines) = [str "left"; str "right"; str "below"].
Proof.
  split; [|reflexivity].
  apply (C3_sort_reading_order twoLines).
  { repeat constructor; discriminate. }
  intros a b c Ha Hb Hc. simpl in Ha, Hb, Hc.
  destruct Ha as [<-|[<-|[<-|[]]]];
    destruct Hb as [<-|[<-|[<-|[]]]];
    destruct Hc as [<-|[<-|[<-|[]]]];
    vm_compute; intros H1 H2; try exact H2; try (exfalso; apply H1; reflexivity);
    try (exfalso; apply H2; reflexivity); discriminate.
Defined.

(** C3 fails as stated: the sorted slanted regions are not pairwise in
    the stated order (and no order of them is,
    [slanted_has_no_reading_order]). *)
Lemma C3_counterexample :
  ~ readingOrdered (sortRegions slanted).
Proof.
  apply slanted_has_no_reading_order, sortRegions_perm.
Qed.

(* ------------------------------------------------------------------ *)
(** * Word wrap: the words of a text *)

Lemma split_nonempty (sep : jschar) (s : jsstring) : split sep s <> [].
Proof.
  destruct s as [|c r]; simpl; [discriminate|].
  destruct (c =? sep)%N; [discriminate|].
  destruct (split sep r); discriminate.
Qed.

Lemma split_cons_other (sep c : jschar) (s : jsstring) :
  (c =? sep)%N = false ->
  exists w ws, split sep s = w :: ws /\ split sep (c :: s) = (c :: w) :: ws.
Proof.
  intros Hc. simpl. rewrite Hc.
  destruct (split sep s) as [|w ws] eqn:E; [destruct (split_nonempty _ _ E)|].
  exists w, ws. split; reflexivity.
Qed.

Lemma not_space_not_SP (c : jschar) : isSpace c = false -> (c =? SP)%N = false.
Proof.
  intros H. destruct (N.eqb_spec c SP) as [->|_]; [discriminate | reflexivity].
Qed.

Lemma replaceSpaceRuns_space_head (r : jsstring) (c : jschar) :
  isSpace c = true -> exists t, replaceSpaceRuns (c :: r) = SP :: t.
Proof.
  revert c. induction r as [|c' r IH]; intros c Hc.
  - exists []. simpl. rewrite Hc. reflexivity.
  - destruct (isSpace c') eqn:Hc'.
    + destruct (IH c' Hc') as [t Ht]. exists t. rewrite <- Ht.
      change (replaceSpaceRuns (c :: c' :: r))
        with (if isSpace c
              then if isSpace c' then replaceSpaceRuns (c' :: r)
                   else SP :: replaceSpaceRuns (c' :: r)
              else c :: replaceSpaceRuns (c' :: r)).
      rewrite Hc, Hc'. reflexivity.
    + exists (replaceSpaceRuns (c' :: r)).
      change (replaceSpaceRuns (c :: c' :: r))
        with (if isSpace c
              then if isSpace c' then replaceSpaceRuns (c' :: r)
                   else SP :: replaceSpaceRuns (c' :: r)
              else c :: replaceSpaceRuns (c' :: r)).
      rewrite Hc, Hc'. reflexivity.
Qed.

(** Splitting the normalized text at its spaces gives, once the empty
    pieces are gone, the maximal runs of non-whitespace. *)
Lemma split_replaceSpaceRuns (s : jsstring) :
  filter truthy (split SP (replaceSpaceRuns s)) = tokens s.
Proof.
  induction s as [|c r IH]; [reflexivity|].
  cbn [replaceSpaceRuns tokens].
  destruct (isSpace c) eqn:Hc.
  - destruct r as [|c' r']; [reflexivity|].
    destruct (isSpace c') eqn:Hc'; [exact IH|].
    cbn [split]. rewrite N.eqb_refl. cbn [filter truthy]. exact IH.
  - destruct r as [|c' r']; [simpl; rewrite (not_space_not_SP c Hc); reflexivity|].
    destruct (split_cons_other SP c (replaceSpaceRuns (c' :: r'))
                (not_space_not_SP c Hc)) as [w [ws [E1 E2]]].
    rewrite E2. rewrite E1 in IH.
    destruct (isSpace c') eqn:Hc'.
    + destruct (replaceSpaceRuns_space_head r' c' Hc') as [t Ht].
      rewrite Ht in E1. cbn [split] in E1. rewrite N.eqb_refl in E1.
      injection E1 as <- <-. cbn [filter truthy] in *. rewrite IH. reflexivity.
    + cbn [replaceSpaceRuns] in E1. rewrite Hc' in E1.
      destruct (split_cons_other SP c' (replaceSpaceRuns r')
                  (not_space_not_SP c' Hc')) as [w' [ws' [_ E4]]].
      assert (Ew : w = c' :: w').
      { destruct r' as [|c'' r'']; cbn [replaceSpaceRuns] in *;
          rewrite E4 in E1; injection E1 as <- _; reflexivity. }
      subst w. cbn [filter truthy] in *. rewrite <- IH. reflexivity.
Qed.

(** Every whitespace character of the normalized text is a space. *)
Lemma replaceSpaceRuns_normal (s : jsstring) :
  forallb (fun c => negb (isSpace c) || (c =? SP)%N) (replaceSpaceRuns s) = true.
Proof.
  induction s as [|c r IH]; [reflexivity|].
  cbn [replaceSpaceRuns].
  destruct (isSpace c) eqn:Hc.
  - destruct r as [|c' r']; [reflexivity|].
    destruct (isSpace c'); [exact IH|].
    cbn [forallb]. rewrite IH. reflexivity.
  - cbn [forallb]. rewrite Hc, IH. reflexivity.
Qed.

Lemma spaces_repeat (a : jsstring) :
  forallb (fun c => negb (isSpace c) || (c =? SP)%N) a = true ->
  forallb isSpace a = true ->
  a = repeat SP (List.length a).
Proof.
  induction a as [|c a IH]; [reflexivity|].
  cbn [forallb]. intros H1 H2.
  apply andb_true_iff in H1, H2. destruct H1 as [H1 H1'], H2 as [H2 H2'].
  rewrite H2 in H1. simpl in H1. apply N.eqb_eq in H1. subst c.
  simpl. f_equal. apply IH; assumption.
Qed.

Lemma split_leading_spaces (n : nat) (u : jsstring) :
  filter truthy (split SP (repeat SP n ++ u)) = filter truthy (split SP u).
Proof.
  induction n as [|n IH]; [reflexivity|].
  cbn [repeat app split]. rewrite N.eqb_refl. cbn [filter truthy]. exact IH.
Qed.

Lemma split_trailing_spaces (m : nat) (u : jsstring) :
  split SP (u ++ repeat SP m) = split SP u ++ repeat [] m.
Proof.
  induction u as [|c u IH].
  - induction m as [|m IHm]; [reflexivity|].
    cbn [repeat app split] in *. rewrite N.eqb_refl, IHm. reflexivity.
  - cbn [app split]. rewrite IH.
    destruct (c =? SP)%N; [reflexivity|].
    destruct (split SP u) as [|w ws] eqn:E; [destruct (split_nonempty _ _ E)|].
    reflexivity.
Qed.

Lemma filter_truthy_repeat_nil (m : nat) :
  filter truthy (repeat (@nil jschar) m) = [].
Proof.
  induction m as [|m IH]; [reflexivity | exact IH].
Qed.

(** The words of a text are its maximal runs of non-whitespace. *)
Lemma wordsOf_tokens (text : jsstring) : wordsOf text = tokens text.
Proof.
  unfold wordsOf. rewrite <- split_replaceSpaceRuns.
  pose proof (replaceSpaceRuns_normal text) as Hn.
  destruct (trim_split (replaceSpaceRuns text)) as [a [b [Hs [Ha Hb]]]].
  rewrite Hs in Hn. rewrite !forallb_app in Hn.
  apply andb_true_iff in Hn. destruct Hn as [Hna Hn].
  apply andb_true_iff in Hn. destruct Hn as [_ Hnb].
  rewrite Hs at 2.
  rewrite (spaces_repeat a Hna Ha), (spaces_repeat b Hnb Hb).
  rewrite split_leading_spaces, split_trailing_spaces, filter_app.
  rewrite filter_truthy_repeat_nil, app_nil_r. reflexivity.
Qed.

Lemma tokens_words (s : jsstring) :
  Forall (fun w => w <> [] /\ forallb (fun c => negb (isSpace c)) w = true)
    (tokens s).
Proof.
  induction s as [|c r IH]; [constructor|].
  cbn [tokens]. destruct (isSpace c) eqn:Hc; [exact IH|].
  assert (H1 : [c] <> [] /\ forallb (fun c => negb (isSpace c)) [c] = true)
    by (split; [discriminate | simpl; rewrite Hc; reflexivity]).
  destruct r as [|c' r']; [constructor; [exact H1 | constructor]|].
  destruct (isSpace c'); [constructor; assumption|].
  destruct (tokens (c' :: r')) as [|w ws]; [constructor; [exact H1 | constructor]|].
  inversion IH as [|? ? [Hw1 Hw2] Hws]; subst.
  constructor; [|exact Hws].
  split; [discriminate | simpl; rewrite Hc, Hw2; reflexivity].
Qed.

Lemma tokens_concat (s : jsstring) :
  concat (tokens s) = filter (fun c => negb (isSpace c)) s.
Proof.
  induction s as [|c r IH]; [reflexivity|].
  cbn [tokens filter]. destruct (isSpace c) eqn:Hc; cbn [negb]; [exact IH|].
  destruct r as [|c' r']; [reflexivity|].
  destruct (isSpace c') eqn:Hc'.
  - cbn [concat app]. rewrite IH. reflexivity.
  - rewrite <- IH. destruct (tokens (c' :: r')); reflexivity.
Qed.

Lemma tokens_blank (s : jsstring) : forallb isSpace s = true -> tokens s = [].
Proof.
  induction s as [|c r IH]; [reflexivity|].
  cbn [forallb tokens]. intros H. apply andb_true_iff in H.
  destruct H as [Hc Hr]. rewrite Hc. exact (IH Hr).
Qed.

(* ------------------------------------------------------------------ *)
(** * Word wrap: filling the lines *)

Lemma joinSp_snoc (cur : list jsstring) (w : jsstring) :
  cur <> [] -> joinSp (cur ++ [w]) = joinSp cur ++ [SP] ++ w.
Proof.
  induction cur as [|a cur IH]; [contradiction|]. intros _.
  destruct cur as [|b cur]; [reflexivity|].
  change (joinSp ((a :: b :: cur) ++ [w]))
    with (a ++ [SP] ++ joinSp ((b :: cur) ++ [w])).
  rewrite IH by discriminate.
  change (joinSp (a :: b :: cur)) with (a ++ [SP] ++ joinSp (b :: cur)).
  rewrite <- !app_assoc. reflexivity.
Qed.

Lemma truthy_joinSp (cur : list jsstring) :
  cur <> [] -> Forall (fun w => w <> []) cur -> truthy (joinSp cur) = true.
Proof.
  destruct cur as [|a cur]; [contradiction|]. intros _ H.
  inversion H as [|? ? Ha _]; subst.
  destruct a as [|c a]; [contradiction|].
  destruct cur; reflexivity.
Qed.

Section Wrap.

Variable measureText : Z -> jsstring -> Q.
Variables font maxWidth : Z.

Local Abbreviation fits := (fitsIn measureText font maxWidth).

Lemma wrapStep_first (out : list jsstring) (w : jsstring) :
  wrapStep measureText font maxWidth (out, []) w = (out, w).
Proof.
  unfold wrapStep. cbn [truthy]. rewrite andb_false_r. reflexivity.
Qed.

Lemma wrapStep_next (out : list jsstring) (line w : jsstring) :
  truthy line = true ->
  wrapStep measureText font maxWidth (out, line) w
  = if fits (line ++ [SP] ++ w) then (out, line ++ [SP] ++ w)
    else (out ++ [line], w).
Proof.
  intros H. unfold wrapStep, fits, fitsIn. rewrite H, andb_true_r.
  destruct (Qle_bool _ _); reflexivity.
Qed.

Lemma wrap_fill (ws : list jsstring) (out : list jsstring) (cur : list jsstring) :
  cur <> [] -> Forall (fun w => w <> []) cur -> Forall (fun w => w <> []) ws ->
  finishWrap (fold_left (wrapStep measureText font maxWidth) ws (out, joinSp cur))
  = out ++ List.map joinSp (fill fits cur ws).
Proof.
  revert out cur. induction ws as [|w r IH]; intros out cur Hne Hcur Hws.
  - simpl. rewrite (truthy_joinSp cur Hne Hcur). reflexivity.
  - inversion Hws as [|? ? Hw Hr]; subst.
    cbn [fold_left fill].
    rewrite (wrapStep_next out (joinSp cur) w (truthy_joinSp cur Hne Hcur)).
    rewrite <- (joinSp_snoc cur w Hne).
    destruct (fits (joinSp (cur ++ [w]))).
    + apply IH; [destruct cur; discriminate | | exact Hr].
      apply Forall_app. split; [exact Hcur | constructor; [exact Hw | constructor]].
    + change w with (joinSp [w]) at 1.
      rewrite (IH (out ++ [joinSp cur]) [w]);
        [| discriminate | constructor; [exact Hw | constructor] | exact Hr].
      cbn [List.map]. rewrite <- app_assoc. reflexivity.
Qed.

Lemma wrapWords_greedy (ws : list jsstring) :
  Forall (fun w => w <> []) ws ->
  wrapWords measureText font maxWidth ws = List.map joinSp (greedy fits ws).
Proof.
  intros Hws. unfold wrapWords.
  change (finishWrap (fold_left (wrapStep measureText font maxWidth) ws ([], []))
          = List.map joinSp (greedy fits ws)).
  destruct ws as [|w r]; [reflexivity|].
  inversion Hws as [|? ? Hw Hr]; subst.
  cbn [fold_left greedy]. rewrite wrapStep_first.
  change w with (joinSp [w]) at 1.
  rewrite (wrap_fill r [] [w]);
    [reflexivity | discriminate | constructor; [exact Hw | constructor] | exact Hr].
Qed.

Lemma fill_concat (ws cur : list jsstring) :
  concat (fill fits cur ws) = cur ++ ws.
Proof.
  revert cur. induction ws as [|w r IH]; intros cur; cbn [fill].
  - simpl. reflexivity.
  - destruct (fits (joinSp (cur ++ [w]))).
    + rewrite IH, <- app_assoc. reflexivity.
    + cbn [concat]. rewrite IH. reflexivity.
Qed.

Lemma fill_groups (ws cur : list jsstring) :
  cur <> [] -> Forall (fun g => g <> []) (fill fits cur ws).
Proof.
  revert cur. induction ws as [|w r IH]; intros cur Hne; cbn [fill].
  - constructor; [exact Hne | constructor].
  - destruct (fits (joinSp (cur ++ [w]))).
    + apply IH. destruct cur; discriminate.
    + constructor; [exact Hne | apply IH; discriminate].
Qed.

Lemma fill_widths (ws cur : list jsstring) :
  fits (joinSp cur) = true \/ (exists w, cur = [w]) ->
  Forall (fun g => fits (joinSp g) = true \/ exists w, g = [w]) (fill fits cur ws).
Proof.
  revert cur. induction ws as [|w r IH]; intros cur Hcur; cbn [fill].
  - constructor; [exact Hcur | constructor].
  - destruct (fits (joinSp (cur ++ [w]))) eqn:E.
    + apply IH. left. exact E.
    + constructor; [exact Hcur | apply IH; right; exists w; reflexivity].
Qed.

Lemma fill_head (ws cur : list jsstring) :
  exists extra rest, fill fits cur ws = (cur ++ extra) :: rest.
Proof.
  revert cur. induction ws as [|w r IH]; intros cur; cbn [fill].
  - exists [], []. rewrite app_nil_r. reflexivity.
  - destruct (fits (joinSp (cur ++ [w]))).
    + destruct (IH (cur ++ [w])) as [extra [rest E]].
      exists (w :: extra), rest. rewrite E, <- app_assoc. reflexivity.
    + exists [], (fill fits [w] r). rewrite app_nil_r. reflexivity.
Qed.

Lemma fill_maximal (ws cur : list jsstring) :
  greedyMaximal fits (fill fits cur ws) = true.
Proof.
  revert cur. induction ws as [|w r IH]; intros cur; cbn [fill].
  - reflexivity.
  - destruct (fits (joinSp (cur ++ [w]))) eqn:E; [apply IH|].
    destruct (fill_head r [w]) as [extra [rest Eh]].
    pose proof (IH [w]) as IHw. rewrite Eh in *.
    cbn [greedyMaximal app]. cbn [app] in IHw.
    rewrite E. cbn [negb andb]. exact IHw.
Qed.

End Wrap.

Lemma wordsOf_nonempty (text : jsstring) :
  Forall (fun w => w <> []) (wordsOf text).
Proof.
  rewrite wordsOf_tokens.
  eapply Forall_impl; [|apply tokens_words]. intros w [H _]. exact H.
Qed.

(** C4: the words of a text are the pieces between spaces of the text
    with its whitespace runs turned into single spaces and trimmed, that
    is its maximal runs of non-whitespace (none for an empty or
    whitespace-only text).  The lines are the greedy filling of the
    words, for any width measure: the words in order, each whole, grouped
    into non-empty lines joined by single spaces; a word joins the
    current line while the candidate's width is <= maxW and otherwise
    starts the next line alone; the last line is kept.  Hence a line is
    at most maxW wide unless it is a single word, and every line is
    full. *)
Theorem C4_word_wrap (measureText : Z -> jsstring -> Q) (font maxW : Z)
  (text : jsstring) :
  wordsOf text = filter truthy (split SP (trim (replaceSpaceRuns text)))
  /\ wordsOf text = tokens text
  /\ Forall (fun w => w <> [] /\ forallb (fun c => negb (isSpace c)) w = true)
       (wordsOf text)
  /\ concat (wordsOf text) = filter (fun c => negb (isSpace c)) text
  /\ (forallb isSpace text = true -> wrapLines measureText font text maxW = [])
  /\ wrapLines measureText font text maxW
     = List.map joinSp (greedy (fitsIn measureText font maxW) (wordsOf text))
  /\ concat (greedy (fitsIn measureText font maxW) (wordsOf text)) = wordsOf text
  /\ Forall (fun g => g <> [])
       (greedy (fitsIn measureText font maxW) (wordsOf text))
  /\ Forall (fun g => (measureText font (joinSp g) <= inject_Z maxW)%Q
                      \/ exists w, g = [w])
       (greedy (fitsIn measureText font maxW) (wordsOf text))
  /\ greedyMaximal (fitsIn measureText font maxW)
       (greedy (fitsIn measureText font maxW) (wordsOf text)) = true
  /\ (forall w, wordsOf text = [w] -> wrapLines measureText font text maxW = [w]).
Proof.
  assert (Hwrap : wrapLines measureText font text maxW
                  = List.map joinSp (greedy (fitsIn measureText font maxW)
                                       (wordsOf text))).
  { unfold wrapLines. apply wrapWords_greedy, wordsOf_nonempty. }
  split; [reflexivity|].
  split; [apply wordsOf_tokens|].
  split; [rewrite wordsOf_tokens; apply tokens_words|].
  split; [rewrite wordsOf_tokens; apply tokens_concat|].
  split.
  { intros H. rewrite Hwrap, wordsOf_tokens, (tokens_blank text H). reflexivity. }
  split; [exact Hwrap|].
  split.
  { destruct (wordsOf text) as [|w r]; [reflexivity|]. apply fill_concat. }
  split.
  { destruct (wordsOf text) as [|w r]; [constructor|].
    apply fill_groups. discriminate. }
  split.
  { destruct (wordsOf text) as [|w r]; [constructor|]. cbn [greedy].
    eapply Forall_impl; [|apply (fill_widths measureText font maxW r [w])].
    - intros g [H|H]; [left | right; exact H].
      apply Qle_bool_iff. exact H.
    - right. exists w. reflexivity. }
  split.
  { destruct (wordsOf text) as [|w r]; [reflexivity|]. apply fill_maximal. }
  intros w Hw. rewrite Hwrap, Hw. reflexivity.
Qed.

(* ------------------------------------------------------------------ *)
(** * The font-fit loop *)

(** The quotient and remainder facts behind a floor or a ceiling. *)
Ltac floor_facts a b :=
  pose proof (Z.div_mod a b ltac:(lia));
  pose proof (Z.mod_pos_bound a b ltac:(lia)).

Lemma shrink_div (f : Z) : shrink f = f * 9 / 10.
Proof. reflexivity. Qed.

Lemma startFont_div (maxH : Z) : startFont maxH = Z.max 10 (maxH * 75 / 100).
Proof. reflexivity. Qed.

Lemma lineHeightOf_div (f : Z) : lineHeightOf f = - (- (f * 125) / 100).
Proof. reflexivity. Qed.

Lemma lineHeightOf_ceil (f : Z) :
  4 * lineHeightOf f - 4 < 5 * f <= 4 * lineHeightOf f.
Proof.
  rewrite lineHeightOf_div.
  floor_facts (- (f * 125)) 100. lia.
Qed.

Lemma shrink_lt (f : Z) : 10 < f -> 9 <= shrink f < f.
Proof.
  intros H. rewrite shrink_div.
  floor_facts (f * 9) 10. lia.
Qed.

Lemma shrink_geometric (f : Z) : 10 * shrink f <= 9 * f.
Proof.
  rewrite shrink_div.
  floor_facts (f * 9) 10. lia.
Qed.

Lemma iter_shrink_geometric (k : nat) (f : Z) :
  10 ^ Z.of_nat k * Nat.iter k shrink f <= 9 ^ Z.of_nat k * f.
Proof.
  induction k as [|k IH].
  - simpl. lia.
  - rewrite Nat2Z.inj_succ, !Z.pow_succ_r by lia. simpl Nat.iter.
    pose proof (shrink_geometric (Nat.iter k shrink f)).
    assert (0 <= 10 ^ Z.of_nat k) by (apply Z.pow_nonneg; lia).
    nia.
Qed.

Section FontFit.

Variable measureText : Z -> jsstring -> Q.
Variables (translated : jsstring) (maxW maxH : Z).

Local Abbreviation stops := (stopsAt measureText translated maxW maxH).
Local Abbreviation fitAt f :=
  {| fontSize := f; lineHeight := lineHeightOf f;
     lines := wrapLines measureText f translated maxW |}.

(** With a unit of fuel in hand and the font size below [fuel + 10], the
    loop ends: it shrinks [k] times, never stopping on the way. *)
Lemma fitLoop_runs (fuel : nat) (f : Z) :
  (1 <= fuel)%nat -> f < Z.of_nat fuel + 10 ->
  exists k,
    (forall j, (j < k)%nat -> stops (Nat.iter j shrink f) = false)
    /\ stops (Nat.iter k shrink f) = true
    /\ fitLoop measureText fuel translated maxW maxH f
       = Some (fitAt (Nat.iter k shrink f)).
Proof.
  revert f. induction fuel as [|n IH]; intros f Hfuel Hf; [lia|].
  destruct (stops f) eqn:Hs.
  - exists 0%nat. split; [intros j Hj; lia|]. split; [exact Hs|].
    simpl. unfold stops, stopsAt in Hs. rewrite Hs. reflexivity.
  - assert (Hgt : 10 < f).
    { unfold stops, stopsAt in Hs. apply orb_false_iff in Hs.
      destruct Hs as [_ Hs]. apply Z.leb_gt in Hs. exact Hs. }
    pose proof (shrink_lt f Hgt) as Hsh.
    destruct (IH (shrink f)) as [k [Hbefore [Hstop Hrun]]]; [lia | lia |].
    exists (S k). split; [|split].
    + intros [|j] Hj; [exact Hs|].
      rewrite Nat.iter_succ_r. apply Hbefore. lia.
    + rewrite Nat.iter_succ_r. exact Hstop.
    + rewrite Nat.iter_succ_r. simpl fitLoop.
      unfold stops, stopsAt in Hs. rewrite Hs. exact Hrun.
Qed.

(** The loop that shrinks [k] times makes exactly [k + 1] passes. *)
Lemma fitLoop_passes (k : nat) (f : Z) :
  (forall j, (j < k)%nat -> stops (Nat.iter j shrink f) = false) ->
  stops (Nat.iter k shrink f) = true ->
  fitLoop measureText (S k) translated maxW maxH f
  = Some (fitAt (Nat.iter k shrink f))
  /\ fitLoop measureText k translated maxW maxH f = None.
Proof.
  revert f. induction k as [|k IH]; intros f Hbefore Hstop.
  - simpl in *. unfold stops, stopsAt in Hstop. rewrite Hstop.
    split; reflexivity.
  - pose proof (Hbefore 0%nat ltac:(lia)) as H0. simpl in H0.
    destruct (IH (shrink f)) as [E1 E2].
    + intros j Hj. rewrite <- Nat.iter_succ_r. apply Hbefore. lia.
    + rewrite <- Nat.iter_succ_r. exact Hstop.
    + unfold stops, stopsAt in H0.
      split.
      * rewrite Nat.iter_succ_r. simpl fitLoop at 1. rewrite H0. exact E1.
      * simpl fitLoop at 1. rewrite H0. exact E2.
Qed.

Lemma startFont_ge (h : Z) : 10 <= startFont h.
Proof. rewrite startFont_div. lia. Qed.

Lemma fontFit_runs :
  exists k,
    (forall j, (j < k)%nat -> stops (Nat.iter j shrink (startFont maxH)) = false)
    /\ stops (Nat.iter k shrink (startFont maxH)) = true
    /\ fontFit measureText translated maxW maxH
       = Some (fitAt (Nat.iter k shrink (startFont maxH))).
Proof.
  unfold fontFit. pose proof (startFont_ge maxH).
  apply fitLoop_runs; lia.
Qed.

End FontFit.

(** The font-fit loop always returns. *)
Lemma fontFit_total measureText translated maxW maxH :
  exists fit, fontFit measureText translated maxW maxH = Some fit.
Proof.
  destruct (fontFit_runs measureText translated maxW maxH) as [k [_ [_ E]]].
  eexists. exact E.
Qed.

(** ** The logarithmic bound *)

Lemma Rceil_ge (r : R) : (r <= IZR (Rceil r))%R.
Proof.
  unfold Rceil. rewrite opp_IZR.
  destruct (base_Int_part (- r)) as [H _]. lra.
Qed.

Lemma ln_ratio_pos : (0 < ln (1 / 0.9))%R.
Proof.
  rewrite <- ln_1. apply ln_increasing; lra.
Qed.

(** A size still above 10 after [k] shrinks keeps [k] below the bound. *)
Lemma shrinks_below_bound (start : Z) (k : nat) :
  10 <= start -> 10 < Nat.iter k shrink start ->
  Z.of_nat k < shrinkBound start.
Proof.
  intros Hstart Hk.
  pose proof (iter_shrink_geometric k start) as Hgeo.
  assert (Hpow : 10 * 10 ^ Z.of_nat k < 9 ^ Z.of_nat k * start).
  { assert (0 < 10 ^ Z.of_nat k) by (apply Z.pow_pos_nonneg; lia). nia. }
  apply IZR_lt in Hpow.
  rewrite !mult_IZR, <- !pow_IZR in Hpow.
  assert (H9 : (0 < 9 ^ k)%R) by (apply pow_lt; lra).
  assert (H10 : (0 < 10 ^ k)%R) by (apply pow_lt; lra).
  assert (Hs : (0 < IZR start)%R) by (apply IZR_lt; lia).
  assert (Hq : ((1 / 0.9) ^ k < IZR start / 10)%R).
  { replace (1 / 0.9)%R with (10 / 9)%R by lra.
    unfold Rdiv at 1. rewrite Rpow_mult_distr, pow_inv.
    apply (Rmult_lt_reg_r (9 ^ k)); [exact H9|].
    rewrite Rmult_assoc, Rinv_l by lra. lra. }
  assert (Hln : (INR k * ln (1 / 0.9) < ln (IZR start / 10))%R).
  { rewrite <- ln_pow by lra. apply ln_increasing; [apply pow_lt; lra | exact Hq]. }
  pose proof ln_ratio_pos as Hpos.
  assert (Hlt : (INR k < ln (IZR start / 10) / ln (1 / 0.9))%R).
  { apply (Rmult_lt_reg_r (ln (1 / 0.9))); [exact Hpos|].
    unfold Rdiv at 2. rewrite Rmult_assoc, Rinv_l by lra. lra. }
  apply lt_IZR. rewrite <- INR_IZR_INZ.
  eapply Rlt_le_trans; [exact Hlt | apply Rceil_ge].
Qed.

Lemma shrinkBound_nonneg (start : Z) : 10 <= start -> 0 <= shrinkBound start.
Proof.
  intros H. apply le_IZR. eapply Rle_trans; [|apply Rceil_ge].
  apply IZR_le in H.
  apply Rmult_le_pos.
  - rewrite <- ln_1. destruct (Req_dec (IZR start) 10) as [E|N].
    + rewrite E. right. f_equal. lra.
    + left. apply ln_increasing; lra.
  - left. apply Rinv_0_lt_compat. apply ln_ratio_pos.
Qed.

Lemma stopsAt_false measureText translated maxW maxH f :
  stopsAt measureText translated maxW maxH f = false ->
  Z.of_nat (List.length (wrapLines measureText f translated maxW))
  * lineHeightOf f > maxH /\ 10 < f.
Proof.
  unfold stopsAt. intros H. apply orb_false_iff in H. destruct H as [H1 H2].
  apply Z.leb_gt in H1, H2. lia.
Qed.

Lemma stopsAt_true measureText translated maxW maxH f :
  stopsAt measureText translated maxW maxH f = true ->
  Z.of_nat (List.length (wrapLines measureText f translated maxW))
  * lineHeightOf f <= maxH \/ f <= 10.
Proof.
  unfold stopsAt. intros H. apply orb_true_iff in H.
  destruct H as [H|H]; apply Z.leb_le in H; [left | right]; exact H.
Qed.

(** C5, as amended: the font-fit loop returns.  It starts at
    max(10, floor(maxH * 0.75)); a pass at size f sets the line height to
    ceil(f * 1.25), wraps the text and stops when the lines fit in maxH or
    f <= 10; otherwise it goes on at floor(f * 0.9), which is smaller than
    f.  The number k of such shrinking steps is at most
    ceil(log(startFont / 10) / log(1 / 0.9)); the body of the loop runs
    k + 1 times (k + 1 units of fuel give the result, k do not). *)
Theorem C5_font_fit_terminates (measureText : Z -> jsstring -> Q)
  (translated : jsstring) (maxW maxH : Z) :
  exists fit k,
    fontFit measureText translated maxW maxH = Some fit
    /\ fitLoop measureText (S k) translated maxW maxH (startFont maxH) = Some fit
    /\ fitLoop measureText k translated maxW maxH (startFont maxH) = None
    /\ (exists q, 4 * q <= 3 * maxH < 4 * q + 4 /\ startFont maxH = Z.max 10 q)
    /\ fontSize fit = Nat.iter k shrink (startFont maxH)
    /\ lineHeight fit = lineHeightOf (fontSize fit)
    /\ 4 * lineHeight fit - 4 < 5 * fontSize fit <= 4 * lineHeight fit
    /\ lines fit = wrapLines measureText (fontSize fit) translated maxW
    /\ (Z.of_nat (List.length (lines fit)) * lineHeight fit <= maxH
        \/ fontSize fit <= 10)
    /\ (forall j, (j < k)%nat ->
          Z.of_nat (List.length (wrapLines measureText
                                   (Nat.iter j shrink (startFont maxH))
                                   translated maxW))
          * lineHeightOf (Nat.iter j shrink (startFont maxH)) > maxH
          /\ 10 < Nat.iter j shrink (startFont maxH)
          /\ 10 * Nat.iter (S j) shrink (startFont maxH)
             <= 9 * Nat.iter j shrink (startFont maxH)
             < 10 * Nat.iter (S j) shrink (startFont maxH) + 10
          /\ Nat.iter (S j) shrink (startFont maxH)
             < Nat.iter j shrink (startFont maxH))
    /\ Z.of_nat k <= shrinkBound (startFont maxH).
Proof.
  destruct (fontFit_runs measureText translated maxW maxH)
    as [k [Hbefore [Hstop Hrun]]].
  eexists. exists k. split; [exact Hrun|].
  destruct (fitLoop_passes measureText translated maxW maxH k
              (startFont maxH) Hbefore Hstop) as [Hpass Hshort].
  split; [exact Hpass|]. split; [exact Hshort|].
  split.
  { exists (maxH * 75 / 100). split; [|apply startFont_div].
    floor_facts (maxH * 75) 100. lia. }
  split; [reflexivity|].
  split; [reflexivity|].
  split; [apply lineHeightOf_ceil|].
  split; [reflexivity|].
  split; [apply stopsAt_true; exact Hstop|].
  split.
  - intros j Hj. specialize (Hbefore j Hj).
    apply stopsAt_false in Hbefore. destruct Hbefore as [H1 H2].
    split; [exact H1|]. split; [exact H2|].
    simpl Nat.iter. pose proof (shrink_lt _ H2) as H3.
    rewrite shrink_div in *.
    floor_facts (Nat.iter j shrink (startFont maxH) * 9) 10.
    lia.
  - pose proof (startFont_ge maxH) as Hge.
    destruct k as [|k]; [apply shrinkBound_nonneg; exact Hge|].
    specialize (Hbefore k ltac:(lia)). apply stopsAt_false in Hbefore.
    pose proof (shrinks_below_bound (startFont maxH) k Hge (proj2 Hbefore)).
    lia.
Qed.

Lemma shrinkBound_11 : shrinkBound 11 = 1.
Proof.
  unfold shrinkBound, Rceil.
  pose proof ln_ratio_pos as Hpos.
  assert (H1 : (0 < ln (11 / 10))%R) by (rewrite <- ln_1; apply ln_increasing; lra).
  assert (H2 : (ln (11 / 10) < ln (1 / 0.9))%R) by (apply ln_increasing; lra).
  rewrite <- (Int_part_spec (- (ln (11 / 10) / ln (1 / 0.9))) (-1)); [reflexivity|].
  assert (H3 : (0 < ln (11 / 10) / ln (1 / 0.9))%R).
  { apply Rmult_lt_0_compat; [exact H1 | apply Rinv_0_lt_compat; exact Hpos]. }
  assert (H4 : (ln (11 / 10) / ln (1 / 0.9) < 1)%R).
  { apply (Rmult_lt_reg_r (ln (1 / 0.9))); [exact Hpos|].
    unfold Rdiv at 1. rewrite Rmult_assoc, Rinv_l by lra. lra. }
  split; lra.
Qed.

(** C5 fails as stated when iterations are passes through the loop body:
    with maxH = 15 the loop starts at 11, where the bound is 1; "Hola
    Mundo" wrapped to width 10 takes two lines of height 14, so the first
    pass shrinks to 9 and only the second pass stops. *)
Lemma C5_counterexample :
  startFont 15 = 11
  /\ shrinkBound (startFont 15) = 1
  /\ fitLoop sampleMeasure 1 (str "Hola Mundo") 10 15 (startFont 15) = None
  /\ fitLoop sampleMeasure 2 (str "Hola Mundo") 10 15 (startFont 15)
     = Some {| fontSize := 9; lineHeight := 12;
               lines := [str "Hola"; str "Mundo"] |}
  /\ fontFit sampleMeasure (str "Hola Mundo") 10 15
     = Some {| fontSize := 9; lineHeight := 12;
               lines := [str "Hola"; str "Mundo"] |}.
Proof.
  split; [reflexivity|]. split; [exact shrinkBound_11|].
  split; [vm_compute; reflexivity|].
  split; vm_compute; reflexivity.
Qed.

(* ------------------------------------------------------------------ *)
(** * Drawing *)

Lemma drawnLines_succ font lh px cy (line : jsstring) (rest : list jsstring) k :
  drawnLines font lh px cy (line :: rest) (S k)
  = FillText Black font line px cy
    :: drawnLines font lh px (cy + lh) rest k.
Proof.
  unfold drawnLines. cbn [seq List.map nth].
  rewrite <- seq_shift, map_map.
  f_equal; [f_equal; lia|].
  apply map_ext. intros i. cbn [nth]. f_equal. lia.
Qed.

(** The draw loop draws a prefix of the lines: each drawn line has its
    top at or above [y0 + h - lh], and the first line left out, if any,
    would have its top below that. *)
Lemma drawLines_prefix font lh x0 pad y0 h cy (lines : list jsstring) :
  exists k,
    (k <= List.length lines)%nat
    /\ drawLines font lh x0 pad y0 h cy lines
       = drawnLines font lh (x0 + pad) cy lines k
    /\ (forall i, (i < k)%nat -> cy + Z.of_nat i * lh <= y0 + h - lh)
    /\ ((k < List.length lines)%nat -> cy + Z.of_nat k * lh > y0 + h - lh).
Proof.
  revert cy. induction lines as [|line rest IH]; intros cy.
  - exists 0%nat. simpl.
    split; [lia|]. split; [reflexivity|]. split; intros; lia.
  - simpl drawLines. destruct (cy >? y0 + h - lh) eqn:E.
    + exists 0%nat. split; [simpl; lia|]. split; [reflexivity|].
      split; [intros i Hi; lia|]. intros _. apply Z.gtb_gt in E. lia.
    + destruct (IH (cy + lh)) as [k [Hk [Hd [Hin Hout]]]].
      assert (Hcy : cy <= y0 + h - lh)
        by (destruct (Z.gtb_spec cy (y0 + h - lh)); [discriminate | lia]).
      exists (S k). split; [simpl; lia|].
      split; [rewrite drawnLines_succ, Hd; reflexivity|].
      split.
      * intros [|i] Hi; [lia|]. specialize (Hin i ltac:(lia)). lia.
      * intros Hlt. simpl in Hlt. specialize (Hout ltac:(lia)). lia.
Qed.

(** C7: rendering a region (with a non-empty polygon) always succeeds: it
    erases the rectangle and
    draws the first k lines of the fitted text at (x + pad, y + pad),
    (x + pad, y + pad + lineHeight), ...; every drawn line has its top at
    or above y + h - lineHeight, and if lines are left over, the top of
    the first of them would be below it: they are dropped without any
    error. *)
Theorem C7_draw_truncates (measureText : Z -> jsstring -> Q)
  (imgW imgH : Z) (r : DrawRegion) :
  dr_box r <> [] ->
  exists fit k,
    let rect := rectOf imgW imgH (dr_box r) in
    let pad := padOf (rw rect) (rh rect) in
    fontFit measureText (translated r)
      (maxWOf (rw rect) pad) (maxHOf (rh rect) pad) = Some fit
    /\ (k <= List.length (lines fit))%nat
    /\ renderRegion measureText imgW imgH r
       = Some (FillRect White (rx rect) (ry rect) (rw rect) (rh rect)
               :: List.map (fun i =>
                    FillText Black (fontSize fit) (nth i (lines fit) [])
                      (rx rect + pad)
                      (ry rect + pad + Z.of_nat i * lineHeight fit))
                    (seq 0 k))
    /\ (forall i, (i < k)%nat ->
          ry rect + pad + Z.of_nat i * lineHeight fit
          <= ry rect + rh rect - lineHeight fit)
    /\ ((k < List.length (lines fit))%nat ->
          ry rect + pad + Z.of_nat k * lineHeight fit
          > ry rect + rh rect - lineHeight fit).
Proof.
  intros _.
  set (rect := rectOf imgW imgH (dr_box r)).
  set (pad := padOf (rw rect) (rh rect)).
  destruct (fontFit_total measureText (translated r)
              (maxWOf (rw rect) pad) (maxHOf (rh rect) pad)) as [fit Hfit].
  destruct (drawLines_prefix (fontSize fit) (lineHeight fit) (rx rect) pad
              (ry rect) (rh rect) (ry rect + pad) (lines fit))
    as [k [Hk [Hd [Hin Hout]]]].
  exists fit, k. cbv zeta. fold rect. fold pad.
  split; [exact Hfit|]. split; [exact Hk|].
  split; [|split; assumption].
  unfold renderRegion. fold rect. fold pad. rewrite Hfit, Hd. reflexivity.
Qed.

Lemma C7_draw_truncates_witness :
  (exists fit k,
     fontFit sampleMeasure (str "Hola Mundo") 10 15 = Some fit
     /\ (k <= List.length (lines fit))%nat
     /\ renderRegion sampleMeasure 200 200 cramped
        = Some (FillRect White 0 0 10 15
                :: List.map (fun i =>
                     FillText Black (fontSize fit) (nth i (lines fit) [])
                       0 (Z.of_nat i * lineHeight fit))
                     (seq 0 k))
     /\ (forall i, (i < k)%nat ->
           Z.of_nat i * lineHeight fit <= 15 - lineHeight fit)
     /\ ((k < List.length (lines fit))%nat ->
           Z.of_nat k * lineHeight fit > 15 - lineHeight fit))
  /\ renderRegion sampleMeasure 200 200 cramped
     = Some [FillRect White 0 0 10 15; FillText Black 9 (str "Hola") 0 0].
Proof.
  split; [|vm_compute; reflexivity].
  apply (C7_draw_truncates sampleMeasure 200 200 cramped). discriminate.
Defined.

(* ------------------------------------------------------------------ *)
(** * Pairing regions with translations *)

Lemma mapi_from_nth_error {A B} (f : A -> nat -> B) (l : list A) (i k : nat) :
  nth_error (mapi_from i f l) k
  = option_map (fun a => f a (i + k)%nat) (nth_error l k).
Proof.
  revert i k. induction l as [|a l IH]; intros i k.
  - destruct k; reflexivity.
  - destruct k as [|k]; simpl.
    + rewrite Nat.add_0_r. reflexivity.
    + rewrite IH. rewrite Nat.add_succ_r. reflexivity.
Qed.

Lemma mapi_from_length {A B} (f : A -> nat -> B) (l : list A) (i : nat) :
  List.length (mapi_from i f l) = List.length l.
Proof.
  revert i. induction l as [|a l IH]; intros i; simpl; [|rewrite IH]; reflexivity.
Qed.

Lemma mapi_from_map {A B C} (f : A -> nat -> B) (g : B -> C) (h : A -> C)
  (l : list A) (i : nat) :
  (forall a k, g (f a k) = h a) ->
  List.map g (mapi_from i f l) = List.map h l.
Proof.
  intros H. revert i. induction l as [|a l IH]; intros i; simpl;
    [|rewrite H, IH]; reflexivity.
Qed.

Lemma toDraw_nth_error (regions : list Region) (answers : list jsstring) (i : nat) :
  nth_error (toDraw regions answers) i
  = option_map (fun r => {| dr_text := text r; dr_box := box r;
                            translated := nth i answers [] |})
      (nth_error regions i).
Proof.
  unfold toDraw, mapi. rewrite mapi_from_nth_error. reflexivity.
Qed.

(** With nothing to draw the loop stops in its first pass. *)
Lemma fontFit_empty measureText (maxW maxH : Z) :
  fontFit measureText [] maxW maxH
  = Some {| fontSize := startFont maxH;
            lineHeight := lineHeightOf (startFont maxH);
            lines := [] |}.
Proof.
  unfold fontFit. pose proof (startFont_ge maxH) as Hge.
  destruct (Z.to_nat (startFont maxH)) as [|n] eqn:E; [lia|].
  simpl fitLoop. change (wrapLines measureText (startFont maxH) [] maxW)
    with (@nil jsstring). simpl List.length.
  match goal with
  | |- (if ?b then _ else _) = _ => assert (Hb : b = true)
  end.
  { apply orb_true_iff. rewrite !Z.leb_le. rewrite startFont_div.
    floor_facts (maxH * 75) 100. lia. }
  rewrite Hb. reflexivity.
Qed.

(** A region without translated text is erased and nothing is drawn. *)
Lemma renderRegion_empty measureText (imgW imgH : Z) (r : DrawRegion) :
  translated r = [] ->
  renderRegion measureText imgW imgH r
  = Some [FillRect White (rx (rectOf imgW imgH (dr_box r)))
            (ry (rectOf imgW imgH (dr_box r)))
            (rw (rectOf imgW imgH (dr_box r)))
            (rh (rectOf imgW imgH (dr_box r)))].
Proof.
  intros E. unfold renderRegion. rewrite E, fontFit_empty. reflexivity.
Qed.

Lemma renderRegion_total measureText (imgW imgH : Z) (r : DrawRegion) :
  exists calls, renderRegion measureText imgW imgH r = Some calls.
Proof.
  unfold renderRegion.
  destruct (fontFit_total measureText (translated r)
              (maxWOf (rw (rectOf imgW imgH (dr_box r)))
                 (padOf (rw (rectOf imgW imgH (dr_box r)))
                    (rh (rectOf imgW imgH (dr_box r)))))
              (maxHOf (rh (rectOf imgW imgH (dr_box r)))
                 (padOf (rw (rectOf imgW imgH (dr_box r)))
                    (rh (rectOf imgW imgH (dr_box r))))))
    as [fit Hfit].
  rewrite Hfit. eexists. reflexivity.
Qed.

Lemma renderAll_total measureText (imgW imgH : Z) (regions : list DrawRegion) :
  exists calls, renderAll measureText imgW imgH regions = Some calls.
Proof.
  induction regions as [|r rest [more IH]]; simpl.
  - exists []. reflexivity.
  - destruct (renderRegion_total measureText imgW imgH r) as [calls Hc].
    rewrite Hc, IH. eexists. reflexivity.
Qed.

(** C9: the i-th region is drawn with the i-th translated string, the
    regions being those, in the same order, whose texts made up the
    translation request; a region whose index is at or beyond the length
    of the translated list gets the empty string, and for it the
    rectangle is erased and nothing is drawn; every region of the route
    has at least four points.  With three regions and two
    translated strings the third region is erased and left empty. *)
Theorem C9_positional_pairing (measureText : Z -> jsstring -> Q)
  (translateBatch : list jsstring -> list jsstring)
  (pages : list Page) (imgW imgH : Z)
  (regions : list Region) (answers : list jsstring) :
  List.length (toDraw regions answers) = List.length regions
  /\ List.map dr_text (toDraw regions answers) = List.map text regions
  /\ List.map dr_box (toDraw regions answers) = List.map box regions
  /\ (forall i,
        nth_error (toDraw regions answers) i
        = option_map (fun r => {| dr_text := text r; dr_box := box r;
                                  translated := nth i answers [] |})
            (nth_error regions i))
  /\ (forall i d,
        nth_error (toDraw regions answers) i = Some d ->
        (List.length answers <= i)%nat ->
        translated d = []
        /\ (dr_box d <> [] ->
            renderRegion measureText imgW imgH d
            = Some [FillRect White (rx (rectOf imgW imgH (dr_box d)))
                      (ry (rectOf imgW imgH (dr_box d)))
                      (rw (rectOf imgW imgH (dr_box d)))
                      (rh (rectOf imgW imgH (dr_box d)))]))
  /\ Forall (fun d => (4 <= List.length (dr_box d))%nat)
       (toDraw (sortRegions (extractRegions pages)) answers)
  /\ translateImage measureText translateBatch pages imgW imgH
     = overlayTranslations measureText imgW imgH
         (toDraw (sortRegions (extractRegions pages))
            (translateBatch
               (List.map text (sortRegions (extractRegions pages)))))
  /\ (exists calls,
        translateImage measureText translateBatch pages imgW imgH = Some calls)
  /\ nth_error (toDraw threeRegions twoAnswers) 2
     = Some {| dr_text := str "three"; dr_box := boxAt 10 90 80 20;
               translated := [] |}
  /\ renderRegion measureText 200 200
       {| dr_text := str "three"; dr_box := boxAt 10 90 80 20;
          translated := [] |}
     = Some [FillRect White 10 90 80 20].
Proof.
  split; [apply mapi_from_length|].
  split; [apply mapi_from_map; reflexivity|].
  split; [apply mapi_from_map; reflexivity|].
  split; [apply toDraw_nth_error|].
  split.
  { intros i d Hd Hi. rewrite toDraw_nth_error in Hd.
    destruct (nth_error regions i) as [r|]; [|discriminate].
    simpl in Hd. injection Hd as <-.
    assert (E : nth i answers [] = []) by (apply nth_overflow; exact Hi).
    split; [exact E|]. intros _. apply renderRegion_empty. exact E. }
  split.
  { apply Forall_forall. intros d Hd.
    apply (in_map dr_box) in Hd.
    assert (E : List.map dr_box
                  (toDraw (sortRegions (extractRegions pages)) answers)
                = List.map box (sortRegions (extractRegions pages)))
      by (apply mapi_from_map; reflexivity).
    rewrite E in Hd.
    apply in_map_iff in Hd. destruct Hd as [r [<- Hr]].
    apply (Permutation_in _ (sortRegions_perm _)) in Hr.
    apply (extractRegions_box pages r Hr). }
  split; [reflexivity|].
  split.
  { unfold translateImage, overlayTranslations.
    destruct (renderAll_total measureText imgW imgH
                (toDraw (sortRegions (extractRegions pages))
                   (translateBatch
                      (List.map text (sortRegions (extractRegions pages))))))
      as [calls Hc].
    rewrite Hc. eexists. reflexivity. }
  split; [reflexivity|].
  rewrite renderRegion_empty by reflexivity. reflexivity.
Qed.


(* ================================================================== *)
(** * Further properties of the overlay *)

(** X1: on an image of non-negative size, the rectangle of a non-empty
    polygon starts at non-negative coordinates, is at least one pixel
    wide and high, ends inside the image unless it is the one-pixel
    fallback, and contains every vertex of the polygon that lies on the
    image. *)
Theorem rect_covers_visible_vertices (imgW imgH : Z) (box : list Pt) :
  0 <= imgW -> 0 <= imgH -> box <> [] ->
  0 <= rx (rectOf imgW imgH box)
  /\ 0 <= ry (rectOf imgW imgH box)
  /\ 1 <= rw (rectOf imgW imgH box)
  /\ 1 <= rh (rectOf imgW imgH box)
  /\ (rx (rectOf imgW imgH box) + rw (rectOf imgW imgH box) <= imgW
      \/ rw (rectOf imgW imgH box) = 1)
  /\ (ry (rectOf imgW imgH box) + rh (rectOf imgW imgH box) <= imgH
      \/ rh (rectOf imgW imgH box) = 1)
  /\ (forall p, In p box -> 0 <= x p <= imgW ->
        rx (rectOf imgW imgH box) <= x p
        <= rx (rectOf imgW imgH box) + rw (rectOf imgW imgH box))
  /\ (forall p, In p box -> 0 <= y p <= imgH ->
        ry (rectOf imgW imgH box) <= y p
        <= ry (rectOf imgW imgH box) + rh (rectOf imgW imgH box)).
Proof.
  intros HW HH Hbox.
  destruct (Math_min_isMin _ (map_nonempty x box Hbox)) as [_ Hminx].
  destruct (Math_max_isMax _ (map_nonempty x box Hbox)) as [_ Hmaxx].
  destruct (Math_min_isMin _ (map_nonempty y box Hbox)) as [_ Hminy].
  destruct (Math_max_isMax _ (map_nonempty y box Hbox)) as [_ Hmaxy].
  unfold rectOf; cbn [rx ry rw rh].
  repeat split; try lia.
  - specialize (Hminx (x p) (in_map x box p H)). lia.
  - specialize (Hmaxx (x p) (in_map x box p H)). lia.
  - specialize (Hminy (y p) (in_map y box p H)). lia.
  - specialize (Hmaxy (y p) (in_map y box p H)). lia.
Qed.

Lemma rect_covers_visible_vertices_witness :
  rx (rectOf 200 200 (boxAt (-5) 190 50 30)) <= 45
  <= rx (rectOf 200 200 (boxAt (-5) 190 50 30))
     + rw (rectOf 200 200 (boxAt (-5) 190 50 30)).
Proof.
  destruct (rect_covers_visible_vertices 200 200 (boxAt (-5) 190 50 30))
    as [_ [_ [_ [_ [_ [_ [Hx _]]]]]]]; [lia | lia | discriminate |].
  apply (Hx (pt 45 190)); [simpl; auto | simpl; lia].
Defined.

Lemma padOf_div (w h : Z) : padOf w h = Z.min w h * 8 / 100.
Proof. reflexivity. Qed.

(** X2: for a rectangle at least one pixel wide and high the padding is
    non-negative and at most 8% of the smaller side, so the padded box is
    never empty; the wrap width and height are at least 10, equal the
    padded width and height from 12 pixels on, and exceed the rectangle
    itself below 10 pixels. *)
Theorem padding_bounds (w h : Z) :
  1 <= w -> 1 <= h ->
  0 <= padOf w h
  /\ 25 * padOf w h <= 2 * Z.min w h
  /\ 0 < w - 2 * padOf w h
  /\ 0 < h - 2 * padOf w h
  /\ 10 <= maxWOf w (padOf w h)
  /\ 10 <= maxHOf h (padOf w h)
  /\ (12 <= w -> maxWOf w (padOf w h) = w - 2 * padOf w h)
  /\ (12 <= h -> maxHOf h (padOf w h) = h - 2 * padOf w h)
  /\ (w < 10 -> w < maxWOf w (padOf w h))
  /\ (h < 10 -> h < maxHOf h (padOf w h)).
Proof.
  intros Hw Hh. rewrite padOf_div. unfold maxWOf, maxHOf.
  floor_facts (Z.min w h * 8) 100.
  repeat split; lia.
Qed.

Lemma padding_bounds_witness :
  padOf 100 30 = 2 /\ maxWOf 100 (padOf 100 30) = 100 - 2 * padOf 100 30.
Proof.
  split; [reflexivity|].
  apply (padding_bounds 100 30); lia.
Defined.

Lemma iter_shrink_le (start : Z) (k : nat) :
  (forall j, (j < k)%nat -> 10 < Nat.iter j shrink start) ->
  Nat.iter k shrink start <= start
  /\ (10 <= start -> 9 <= Nat.iter k shrink start).
Proof.
  induction k as [|k IH]; intros H; [simpl; lia|].
  destruct IH as [IH1 IH2]; [intros j Hj; apply H; lia|].
  pose proof (shrink_lt _ (H k ltac:(lia))) as Hs.
  simpl Nat.iter. lia.
Qed.

Lemma fontFit_bounds measureText (translated : jsstring) (maxW maxH : Z) :
  exists fit,
    fontFit measureText translated maxW maxH = Some fit
    /\ 9 <= fontSize fit <= startFont maxH
    /\ lineHeight fit = lineHeightOf (fontSize fit)
    /\ 12 <= lineHeight fit
    /\ lines fit = wrapLines measureText (fontSize fit) translated maxW
    /\ (Z.of_nat (List.length (lines fit)) * lineHeight fit <= maxH
        \/ fontSize fit <= 10).
Proof.
  destruct (fontFit_runs measureText translated maxW maxH)
    as [k [Hbefore [Hstop Hrun]]].
  eexists. split; [exact Hrun|]. cbn [fontSize lineHeight lines].
  destruct (iter_shrink_le (startFont maxH) k) as [H1 H2].
  { intros j Hj. apply (stopsAt_false _ _ _ _ _ (Hbefore j Hj)). }
  specialize (H2 (startFont_ge maxH)).
  split; [lia|]. split; [reflexivity|].
  split; [pose proof (lineHeightOf_ceil (Nat.iter k shrink (startFont maxH))); lia|].
  split; [reflexivity|].
  apply stopsAt_true. exact Hstop.
Qed.

(** X3: the fitted font size lies between 9 and the start size
    max(10, floor(maxH * 0.75)), so the size can end one below the
    minimum of 10 the loop tests against, and the line height is at
    least 12. *)
Theorem font_size_bounds (measureText : Z -> jsstring -> Q)
  (translated : jsstring) (maxW maxH : Z) :
  exists fit,
    fontFit measureText translated maxW maxH = Some fit
    /\ 9 <= fontSize fit <= startFont maxH
    /\ 12 <= lineHeight fit
    /\ 4 * lineHeight fit < 5 * fontSize fit + 4.
Proof.
  destruct (fontFit_bounds measureText translated maxW maxH)
    as [fit [E [Hf [Hl [Hl12 _]]]]].
  exists fit. split; [exact E|]. split; [exact Hf|]. split; [exact Hl12|].
  rewrite Hl. pose proof (lineHeightOf_ceil (fontSize fit)). lia.
Qed.

Lemma drawLines_all font lh x0 pad y0 h cy (lines : list jsstring) :
  0 <= lh -> cy + Z.of_nat (List.length lines) * lh <= y0 + h ->
  drawLines font lh x0 pad y0 h cy lines
  = drawnLines font lh (x0 + pad) cy lines (List.length lines).
Proof.
  intros Hlh. revert cy. induction lines as [|line rest IH]; intros cy H.
  - reflexivity.
  - cbn [List.length] in *. rewrite drawnLines_succ. cbn [drawLines].
    destruct (Z.gtb_spec cy (y0 + h - lh)) as [Hgt|_]; [nia|].
    rewrite IH by nia. reflexivity.
Qed.

Lemma drawLines_none font lh x0 pad y0 h cy (lines : list jsstring) :
  cy > y0 + h - lh -> drawLines font lh x0 pad y0 h cy lines = [].
Proof.
  intros H. destruct lines as [|line rest]; [reflexivity|]. cbn [drawLines].
  destruct (Z.gtb_spec cy (y0 + h - lh)); [reflexivity | lia].
Qed.

Lemma renderRegion_fit measureText (imgW imgH : Z) (r : DrawRegion) (fit : Fit) :
  fontFit measureText (translated r) (regionMaxW imgW imgH r)
    (regionMaxH imgW imgH r) = Some fit ->
  renderRegion measureText imgW imgH r
  = Some (eraseCall imgW imgH r
          :: drawLines (fontSize fit) (lineHeight fit)
               (rx (regionRect imgW imgH r)) (regionPad imgW imgH r)
               (ry (regionRect imgW imgH r)) (rh (regionRect imgW imgH r))
               (ry (regionRect imgW imgH r) + regionPad imgW imgH r)
               (lines fit)).
Proof.
  intros E. unfold renderRegion.
  change (fontFit measureText (translated r)
            (maxWOf (rw (rectOf imgW imgH (dr_box r)))
               (padOf (rw (rectOf imgW imgH (dr_box r)))
                  (rh (rectOf imgW imgH (dr_box r)))))
            (maxHOf (rh (rectOf imgW imgH (dr_box r)))
               (padOf (rw (rectOf imgW imgH (dr_box r)))
                  (rh (rectOf imgW imgH (dr_box r))))))
    with (fontFit measureText (translated r) (regionMaxW imgW imgH r)
            (regionMaxH imgW imgH r)).
  rewrite E. reflexivity.
Qed.

Lemma regionRect_size (imgW imgH : Z) (r : DrawRegion) :
  1 <= rw (regionRect imgW imgH r) /\ 1 <= rh (regionRect imgW imgH r).
Proof.
  unfold regionRect, rectOf; cbn [rw rh]. lia.
Qed.

Lemma regionPad_bounds (imgW imgH : Z) (r : DrawRegion) :
  0 <= regionPad imgW imgH r
  /\ 0 < rh (regionRect imgW imgH r) - 2 * regionPad imgW imgH r
  /\ regionMaxH imgW imgH r
     = Z.max 10 (rh (regionRect imgW imgH r) - 2 * regionPad imgW imgH r).
Proof.
  destruct (regionRect_size imgW imgH r) as [Hw Hh].
  unfold regionMaxH, regionPad, maxHOf. rewrite padOf_div.
  floor_facts (Z.min (rw (regionRect imgW imgH r))
                 (rh (regionRect imgW imgH r)) * 8) 100.
  repeat split; lia.
Qed.

(** X4: when the font-fit loop ends because the wrapped lines fit into
    the text height, which is the case whenever it ends above size 10,
    every line is drawn: lines are dropped only at the smallest sizes. *)
Theorem fitting_text_is_drawn_whole (measureText : Z -> jsstring -> Q)
  (imgW imgH : Z) (r : DrawRegion) :
  dr_box r <> [] ->
  exists fit,
    fontFit measureText (translated r) (regionMaxW imgW imgH r)
      (regionMaxH imgW imgH r) = Some fit
    /\ (10 < fontSize fit ->
        Z.of_nat (List.length (lines fit)) * lineHeight fit
        <= regionMaxH imgW imgH r)
    /\ (Z.of_nat (List.length (lines fit)) * lineHeight fit
        <= regionMaxH imgW imgH r ->
        renderRegion measureText imgW imgH r
        = Some (eraseCall imgW imgH r
                :: drawnLines (fontSize fit) (lineHeight fit)
                     (rx (regionRect imgW imgH r) + regionPad imgW imgH r)
                     (ry (regionRect imgW imgH r) + regionPad imgW imgH r)
                     (lines fit) (List.length (lines fit)))).
Proof.
  intros _.
  destruct (fontFit_bounds measureText (translated r) (regionMaxW imgW imgH r)
              (regionMaxH imgW imgH r)) as [fit [E [Hf [_ [Hl [_ Hstop]]]]]].
  exists fit. split; [exact E|]. split; [intros Hgt; lia|].
  intros Hfits. rewrite (renderRegion_fit _ _ _ _ _ E). f_equal. f_equal.
  destruct (regionPad_bounds imgW imgH r) as [Hp [Hh Hm]].
  apply drawLines_all; [lia|].
  destruct (lines fit) as [|l ls]; [cbn [List.length Z.of_nat]; lia|].
  assert (Hn : lineHeight fit
               <= Z.of_nat (List.length (l :: ls)) * lineHeight fit)
    by (cbn [List.length]; nia).
  lia.
Qed.

Lemma fitting_text_is_drawn_whole_witness :
  renderRegion sampleMeasure 200 200 roomy
  = Some [FillRect White 0 0 100 30;
          FillText Black 19 (str "Hola Mundo") 2 2].
Proof.
  destruct (fitting_text_is_drawn_whole sampleMeasure 200 200 roomy)
    as [fit [E [_ H]]]; [discriminate|].
  vm_compute in E. injection E as <-.
  rewrite H; [reflexivity | vm_compute; discriminate].
Defined.

(** X5: a region whose rectangle is less than 12 pixels high is erased
    and gets no text at all, whatever its translation: no line height is
    below 12. *)
Theorem low_region_is_left_blank (measureText : Z -> jsstring -> Q)
  (imgW imgH : Z) (r : DrawRegion) :
  dr_box r <> [] ->
  rh (regionRect imgW imgH r) < 12 ->
  renderRegion measureText imgW imgH r = Some [eraseCall imgW imgH r].
Proof.
  intros _ Hlow.
  destruct (fontFit_bounds measureText (translated r) (regionMaxW imgW imgH r)
              (regionMaxH imgW imgH r)) as [fit [E [_ [_ [Hl _]]]]].
  rewrite (renderRegion_fit _ _ _ _ _ E). f_equal. f_equal.
  destruct (regionPad_bounds imgW imgH r) as [Hp _].
  apply drawLines_none. lia.
Qed.

Lemma low_region_is_left_blank_witness :
  renderRegion sampleMeasure 400 400 flat = Some [FillRect White 20 20 300 11].
Proof.
  apply (low_region_is_left_blank sampleMeasure 400 400 flat);
    [discriminate | vm_compute; reflexivity].
Defined.

Lemma drawnLines_inside font lh px cy (lines : list jsstring) (k : nat)
  (rect : Rect) (pad : Z) :
  px = rx rect + pad -> cy = ry rect + pad -> 0 <= lh ->
  (forall i, (i < k)%nat -> cy + Z.of_nat i * lh <= ry rect + rh rect - lh) ->
  Forall (textInside rect pad lh) (drawnLines font lh px cy lines k)
  /\ forallb isFillText (drawnLines font lh px cy lines k) = true.
Proof.
  intros Hpx Hcy Hlh Hin. unfold drawnLines. split.
  - apply Forall_forall. intros c Hc. apply in_map_iff in Hc.
    destruct Hc as [i [<- Hi]]. apply in_seq in Hi. cbn [textInside].
    specialize (Hin i ltac:(lia)). repeat split; try assumption; nia.
  - apply forallb_forall. intros c Hc. apply in_map_iff in Hc.
    destruct Hc as [i [<- _]]. reflexivity.
Qed.

(** X6: whatever is drawn for a region after the erase is black text
    that starts at the left padding and whose line box lies between the
    top padding and the bottom edge of the erased rectangle; there are at
    most as many such calls as wrapped lines. *)
Theorem text_stays_inside_rect (measureText : Z -> jsstring -> Q)
  (imgW imgH : Z) (r : DrawRegion) :
  dr_box r <> [] ->
  exists fit calls,
    fontFit measureText (translated r) (regionMaxW imgW imgH r)
      (regionMaxH imgW imgH r) = Some fit
    /\ renderRegion measureText imgW imgH r
       = Some (eraseCall imgW imgH r :: calls)
    /\ Forall (textInside (regionRect imgW imgH r) (regionPad imgW imgH r)
                 (lineHeight fit)) calls
    /\ forallb isFillText calls = true
    /\ (List.length calls <= List.length (lines fit))%nat.
Proof.
  intros _.
  destruct (fontFit_bounds measureText (translated r) (regionMaxW imgW imgH r)
              (regionMaxH imgW imgH r)) as [fit [E [_ [_ [Hl _]]]]].
  destruct (drawLines_prefix (fontSize fit) (lineHeight fit)
              (rx (regionRect imgW imgH r)) (regionPad imgW imgH r)
              (ry (regionRect imgW imgH r)) (rh (regionRect imgW imgH r))
              (ry (regionRect imgW imgH r) + regionPad imgW imgH r) (lines fit))
    as [k [Hk [Hd [Hin _]]]].
  exists fit. eexists. split; [exact E|].
  split; [rewrite (renderRegion_fit _ _ _ _ _ E), Hd; reflexivity|].
  destruct (drawnLines_inside (fontSize fit) (lineHeight fit)
              (rx (regionRect imgW imgH r) + regionPad imgW imgH r)
              (ry (regionRect imgW imgH r) + regionPad imgW imgH r)
              (lines fit) k (regionRect imgW imgH r) (regionPad imgW imgH r)
              eq_refl eq_refl ltac:(lia) Hin) as [H1 H2].
  split; [exact H1|]. split; [exact H2|].
  unfold drawnLines. rewrite length_map, length_seq. exact Hk.
Qed.

Lemma text_stays_inside_rect_witness :
  exists fit calls,
    fontFit sampleMeasure (translated cramped) (regionMaxW 200 200 cramped)
      (regionMaxH 200 200 cramped) = Some fit
    /\ renderRegion sampleMeasure 200 200 cramped
       = Some (eraseCall 200 200 cramped :: calls)
    /\ Forall (textInside (regionRect 200 200 cramped)
                 (regionPad 200 200 cramped) (lineHeight fit)) calls
    /\ forallb isFillText calls = true
    /\ (List.length calls <= List.length (lines fit))%nat.
Proof.
  apply (text_stays_inside_rect sampleMeasure 200 200 cramped). discriminate.
Defined.

Lemma renderRegion_shape measureText (imgW imgH : Z) (r : DrawRegion) :
  exists calls,
    renderRegion measureText imgW imgH r = Some (eraseCall imgW imgH r :: calls)
    /\ forallb isFillText calls = true.
Proof.
  destruct (fontFit_total measureText (translated r) (regionMaxW imgW imgH r)
              (regionMaxH imgW imgH r)) as [fit E].
  destruct (drawLines_prefix (fontSize fit) (lineHeight fit)
              (rx (regionRect imgW imgH r)) (regionPad imgW imgH r)
              (ry (regionRect imgW imgH r)) (rh (regionRect imgW imgH r))
              (ry (regionRect imgW imgH r) + regionPad imgW imgH r) (lines fit))
    as [k [_ [Hd _]]].
  eexists. split; [rewrite (renderRegion_fit _ _ _ _ _ E), Hd; reflexivity|].
  apply forallb_forall. intros c Hc. unfold drawnLines in Hc.
  apply in_map_iff in Hc. destruct Hc as [i [<- _]]. reflexivity.
Qed.

Lemma filter_fillRect_texts (calls : list DrawCall) :
  forallb isFillText calls = true -> filter isFillRect calls = [].
Proof.
  induction calls as [|c r IH]; [reflexivity|]. cbn [forallb filter].
  intros H. apply andb_true_iff in H. destruct H as [Hc Hr].
  destruct c; try discriminate. cbn [isFillRect]. exact (IH Hr).
Qed.

Lemma renderAll_shape measureText (imgW imgH : Z) (regions : list DrawRegion) :
  exists calls,
    renderAll measureText imgW imgH regions = Some calls
    /\ filter isFillRect calls = List.map (eraseCall imgW imgH) regions
    /\ forallb (fun c => isFillRect c || isFillText c) calls = true.
Proof.
  induction regions as [|r rest [more [E [Hf Ha]]]].
  - exists []. repeat split.
  - destruct (renderRegion_shape measureText imgW imgH r) as [calls [Er Ht]].
    exists ((eraseCall imgW imgH r :: calls) ++ more).
    cbn [renderAll]. rewrite Er, E. split; [reflexivity|]. split.
    + cbn [app filter eraseCall isFillRect List.map]. f_equal.
      rewrite filter_app, (filter_fillRect_texts calls Ht), Hf. reflexivity.
    + cbn [app forallb eraseCall isFillRect orb]. rewrite forallb_app, Ha.
      rewrite andb_true_r. apply forallb_forall. intros c Hc.
      rewrite forallb_forall in Ht. rewrite (Ht c Hc). apply orb_true_r.
Qed.

(** X7: [overlayTranslations] first draws the image and then, for each
    region with a non-empty polygon, in the order given, erases its
    rectangle exactly once; every other call writes text. *)
Theorem every_region_is_erased_once (measureText : Z -> jsstring -> Q)
  (imgW imgH : Z) (regions : list DrawRegion) :
  Forall (fun r => dr_box r <> []) regions ->
  exists calls,
    overlayTranslations measureText imgW imgH regions = Some (DrawImage :: calls)
    /\ filter isFillRect calls = List.map (eraseCall imgW imgH) regions
    /\ forallb (fun c => isFillRect c || isFillText c) calls = true.
Proof.
  intros _.
  destruct (renderAll_shape measureText imgW imgH regions) as [calls [E H]].
  exists calls. unfold overlayTranslations. rewrite E. split; [reflexivity | exact H].
Qed.

Lemma every_region_is_erased_once_witness :
  exists calls,
    overlayTranslations sampleMeasure 200 200 (toDraw threeRegions twoAnswers)
    = Some (DrawImage :: calls)
    /\ filter isFillRect calls
       = [FillRect White 10 10 80 20; FillRect White 10 50 80 20;
          FillRect White 10 90 80 20]
    /\ forallb (fun c => isFillRect c || isFillText c) calls = true.
Proof.
  apply (every_region_is_erased_once sampleMeasure 200 200
           (toDraw threeRegions twoAnswers)).
  repeat constructor; discriminate.
Defined.

(** X8: the route answers with the image followed by exactly one erase
    per usable paragraph, whatever the translation service returns; the
    erased rectangles are those of the extracted regions, and an
    annotation without a usable paragraph gives the image alone. *)
Theorem route_erases_each_usable_paragraph (measureText : Z -> jsstring -> Q)
  (translateBatch : list jsstring -> list jsstring)
  (pages : list Page) (imgW imgH : Z) :
  exists calls,
    translateImage measureText translateBatch pages imgW imgH
    = Some (DrawImage :: calls)
    /\ Permutation (filter isFillRect calls)
         (List.map (fun r => eraseBox imgW imgH (box r)) (extractRegions pages))
    /\ List.length (filter isFillRect calls)
       = List.length (flat_map (fun pg => optList (regionOf pg))
                        (allParagraphs pages))
    /\ (extractRegions pages = [] -> calls = []).
Proof.
  unfold translateImage.
  set (sorted := sortRegions (extractRegions pages)).
  set (answers := translateBatch (List.map text sorted)).
  destruct (renderAll_shape measureText imgW imgH (toDraw sorted answers))
    as [calls [E [Hf _]]].
  exists calls. unfold overlayTranslations. rewrite E.
  split; [reflexivity|].
  assert (Hmap : List.map (eraseCall imgW imgH) (toDraw sorted answers)
                 = List.map (fun r => eraseBox imgW imgH (box r)) sorted)
    by (apply mapi_from_map; reflexivity).
  assert (HP : Permutation (filter isFillRect calls)
                 (List.map (fun r => eraseBox imgW imgH (box r))
                    (extractRegions pages))).
  { rewrite Hf, Hmap. apply Permutation_map, sortRegions_perm. }
  split; [exact HP|]. split.
  - rewrite (Permutation_length HP), length_map, extractRegions_flat. reflexivity.
  - intros Hnil. subst sorted. rewrite Hnil in E. cbn in E.
    injection E as <-. reflexivity.
Qed.

(* ================================================================== *)
(** * Further properties of the word wrap *)

Lemma tokens_word_then_space (w rest : jsstring) :
  w <> [] -> forallb (fun c => negb (isSpace c)) w = true ->
  tokens (w ++ SP :: rest) = w :: tokens rest.
Proof.
  induction w as [|c w IH]; [contradiction|]. intros _ H.
  cbn [forallb] in H. apply andb_true_iff in H. destruct H as [Hc Hw].
  apply negb_true_iff in Hc.
  destruct w as [|c2 w].
  - cbn [app tokens]. rewrite Hc. reflexivity.
  - specialize (IH ltac:(discriminate) Hw).
    cbn [forallb] in Hw. apply andb_true_iff in Hw. destruct Hw as [Hc2 _].
    apply negb_true_iff in Hc2.
    change ((c :: c2 :: w) ++ SP :: rest) with (c :: (c2 :: w) ++ SP :: rest).
    cbn [tokens]. rewrite Hc. cbn [app]. rewrite Hc2.
    cbn [app] in IH. rewrite IH. reflexivity.
Qed.

Lemma tokens_word (w : jsstring) :
  w <> [] -> forallb (fun c => negb (isSpace c)) w = true -> tokens w = [w].
Proof.
  induction w as [|c w IH]; [contradiction|]. intros _ H.
  cbn [forallb] in H. apply andb_true_iff in H. destruct H as [Hc Hw].
  apply negb_true_iff in Hc.
  destruct w as [|c2 w].
  - cbn [tokens]. rewrite Hc. reflexivity.
  - specialize (IH ltac:(discriminate) Hw).
    cbn [forallb] in Hw. apply andb_true_iff in Hw. destruct Hw as [Hc2 _].
    apply negb_true_iff in Hc2.
    cbn [tokens]. rewrite Hc, Hc2. cbn [tokens] in IH. rewrite Hc2 in IH.
    rewrite IH. reflexivity.
Qed.

(** Splitting joined words gives the words back. *)
Lemma tokens_joinSp (g : list jsstring) :
  Forall (fun w => w <> [] /\ forallb (fun c => negb (isSpace c)) w = true) g ->
  tokens (joinSp g) = g.
Proof.
  induction g as [|w g IH]; intros H; [reflexivity|].
  inversion H as [|? ? [Hw1 Hw2] Hg]; subst.
  destruct g as [|w2 g]; [apply tokens_word; assumption|].
  change (joinSp (w :: w2 :: g)) with (w ++ SP :: joinSp (w2 :: g)).
  rewrite tokens_word_then_space by assumption. rewrite (IH Hg). reflexivity.
Qed.

Lemma concat_Forall {A} (P : A -> Prop) (groups : list (list A)) :
  Forall P (concat groups) -> Forall (Forall P) groups.
Proof.
  induction groups as [|g r IH]; intros H; [constructor|].
  cbn [concat] in H. apply Forall_app in H. destruct H as [Hg Hr].
  constructor; [exact Hg | exact (IH Hr)].
Qed.

Lemma greedy_concat measureText (font maxW : Z) (ws : list jsstring) :
  concat (greedy (fitsIn measureText font maxW) ws) = ws.
Proof.
  destruct ws as [|w r]; [reflexivity | apply fill_concat].
Qed.

Lemma greedy_groups measureText (font maxW : Z) (ws : list jsstring) :
  Forall (fun g => g <> []) (greedy (fitsIn measureText font maxW) ws).
Proof.
  destruct ws as [|w r]; [constructor | apply fill_groups; discriminate].
Qed.

Lemma concat_length_ge {A} (groups : list (list A)) :
  Forall (fun g => g <> []) groups ->
  (List.length groups <= List.length (concat groups))%nat.
Proof.
  induction groups as [|g r IH]; intros H; [apply Nat.le_refl|].
  inversion H as [|? ? Hg Hr]; subst. cbn [concat List.length].
  rewrite length_app. specialize (IH Hr).
  destruct g; [contradiction | simpl; lia].
Qed.

(** X9: wrapping loses nothing but whitespace: splitting the lines into
    words again gives exactly the words of the text, in order; every line
    is non-empty and already normalized (it is its own words joined by
    single spaces), and there are never more lines than words. *)
Theorem wrap_round_trip (measureText : Z -> jsstring -> Q) (font maxW : Z)
  (text : jsstring) :
  flat_map wordsOf (wrapLines measureText font text maxW) = wordsOf text
  /\ Forall (fun line => line <> [] /\ joinSp (wordsOf line) = line)
       (wrapLines measureText font text maxW)
  /\ (List.length (wrapLines measureText font text maxW)
      <= List.length (wordsOf text))%nat
  /\ (wrapLines measureText font text maxW = [] <-> wordsOf text = []).
Proof.
  unfold wrapLines. rewrite (wrapWords_greedy _ _ _ _ (wordsOf_nonempty text)).
  set (groups := greedy (fitsIn measureText font maxW) (wordsOf text)).
  assert (Hc : concat groups = wordsOf text) by apply greedy_concat.
  assert (Hne : Forall (fun g => g <> []) groups) by apply greedy_groups.
  assert (Hp : Forall (Forall (fun w => w <> []
                 /\ forallb (fun c => negb (isSpace c)) w = true)) groups).
  { pose proof (tokens_words text) as Ht.
    rewrite <- wordsOf_tokens, <- Hc in Ht. exact (concat_Forall _ _ Ht). }
  assert (Hback : forall g, In g groups -> wordsOf (joinSp g) = g).
  { intros g Hg. rewrite wordsOf_tokens. apply tokens_joinSp.
    rewrite Forall_forall in Hp. apply Hp, Hg. }
  split; [|split; [|split]].
  - rewrite <- Hc. clear Hc. induction groups as [|g r IH]; [reflexivity|].
    cbn [List.map flat_map concat]. rewrite (Hback g) by (left; reflexivity).
    f_equal. apply IH.
    + inversion Hne; assumption.
    + inversion Hp; assumption.
    + intros g' Hg'. apply Hback. right. exact Hg'.
  - apply Forall_forall. intros line Hl. apply in_map_iff in Hl.
    destruct Hl as [g [<- Hg]]. rewrite (Hback g Hg). split; [|reflexivity].
    rewrite Forall_forall in Hne, Hp. specialize (Hne g Hg).
    specialize (Hp g Hg). apply truthy_joinSp in Hne.
    + destruct (joinSp g); [discriminate Hne | discriminate].
    + eapply Forall_impl; [|exact Hp]. intros w [H _]. exact H.
  - rewrite length_map, <- Hc. apply concat_length_ge, Hne.
  - split; intros H.
    + rewrite <- Hc. destruct groups; [reflexivity | discriminate H].
    + subst groups. rewrite H. reflexivity.
Qed.

Lemma fill_all_fit (fits : jsstring -> bool) (ws cur : list jsstring) :
  (forall k, (1 <= k <= List.length ws)%nat ->
     fits (joinSp (cur ++ firstn k ws)) = true) ->
  fill fits cur ws = [cur ++ ws].
Proof.
  revert cur. induction ws as [|w r IH]; intros cur H.
  - cbn [fill]. rewrite app_nil_r. reflexivity.
  - pose proof (H 1%nat ltac:(cbn [List.length]; lia)) as H1.
    cbn [firstn] in H1. cbn [fill]. rewrite H1, IH.
    + rewrite <- app_assoc. reflexivity.
    + intros k Hk.
      pose proof (H (S k) ltac:(cbn [List.length]; lia)) as Hk'.
      cbn [firstn] in Hk'. rewrite <- app_assoc. exact Hk'.
Qed.

(** X10: when every leading run of two or more words, joined by single
    spaces, fits into the width, the whole text comes out as one line:
    its words joined by single spaces. *)
Theorem text_that_fits_is_one_line (measureText : Z -> jsstring -> Q)
  (font maxW : Z) (text : jsstring) :
  wordsOf text <> [] ->
  (forall k, (2 <= k <= List.length (wordsOf text))%nat ->
     (measureText font (joinSp (firstn k (wordsOf text))) <= inject_Z maxW)%Q) ->
  wrapLines measureText font text maxW = [joinSp (wordsOf text)].
Proof.
  intros Hne H. unfold wrapLines.
  rewrite (wrapWords_greedy _ _ _ _ (wordsOf_nonempty text)).
  destruct (wordsOf text) as [|w r]; [contradiction|].
  cbn [greedy]. rewrite fill_all_fit; [reflexivity|].
  intros k Hk. unfold fitsIn. apply Qle_bool_iff.
  apply (H (S k)). cbn [List.length]. lia.
Qed.

Lemma text_that_fits_is_one_line_witness :
  wrapLines (fixedMeasure 50) 10 (str "  Hola   Mundo ") 96 = [str "Hola Mundo"].
Proof.
  apply (text_that_fits_is_one_line (fixedMeasure 50) 10 96 (str "  Hola   Mundo ")).
  - vm_compute. discriminate.
  - intros k _. vm_compute. discriminate.
Defined.

Lemma fill_none_fit (fits : jsstring -> bool) (ws : list jsstring) (w : jsstring) :
  (forall a b, In a (w :: ws) -> In b ws -> fits (joinSp [a; b]) = false) ->
  fill fits [w] ws = List.map (fun v => [v]) (w :: ws).
Proof.
  revert w. induction ws as [|v r IH]; intros w H; [reflexivity|].
  cbn [fill app]. rewrite (H w v) by (simpl; auto).
  cbn [List.map]. f_equal. apply IH.
  intros a b Ha Hb. apply H; simpl; [destruct Ha; auto | auto].
Qed.

(** X11: when no two words of the text fit on a line together, every
    word gets a line of its own, however wide it is: the lines are the
    words. *)
Theorem words_that_do_not_pair_get_own_lines (measureText : Z -> jsstring -> Q)
  (font maxW : Z) (text : jsstring) :
  (forall a b, In a (wordsOf text) -> In b (wordsOf text) ->
     ~ (measureText font (a ++ SP :: b) <= inject_Z maxW)%Q) ->
  wrapLines measureText font text maxW = wordsOf text.
Proof.
  intros H. unfold wrapLines.
  rewrite (wrapWords_greedy _ _ _ _ (wordsOf_nonempty text)).
  destruct (wordsOf text) as [|w r]; [reflexivity|].
  cbn [greedy]. rewrite fill_none_fit.
  - rewrite map_map. cbn [joinSp]. apply map_id.
  - intros a b Ha Hb. unfold fitsIn.
    destruct (Qle_bool (measureText font (joinSp [a; b])) (inject_Z maxW)) eqn:E;
      [|reflexivity].
    apply Qle_bool_iff in E. exfalso. apply (H a b); [exact Ha | right; exact Hb|].
    exact E.
Qed.

Lemma words_that_do_not_pair_get_own_lines_witness :
  wrapLines (fixedMeasure 50) 10 (str "uno dos  tres") 20
  = [str "uno"; str "dos"; str "tres"].
Proof.
  apply (words_that_do_not_pair_get_own_lines (fixedMeasure 50) 10 20
           (str "uno dos  tres")).
  intros a b _ _ H. vm_compute in H. apply H. reflexivity.
Defined.

(* ================================================================== *)
(** * Further properties of the extraction, the sort and the pairing *)

Lemma replaceBlanksNL_spaces (s : jsstring) :
  forallb isSpace s = true -> forallb isSpace (replaceBlanksNL s) = true.
Proof.
  induction s as [|c r IH]; [reflexivity|]. cbn [forallb replaceBlanksNL].
  intros H. apply andb_true_iff in H. destruct H as [Hc Hr].
  destruct (isBlank c && startsWithNL (dropWhile isBlank r)).
  - exact (IH Hr).
  - cbn [forallb]. rewrite Hc, (IH Hr). reflexivity.
Qed.

Lemma trim_spaces (s : jsstring) : forallb isSpace s = true -> trim s = [].
Proof.
  intros H. unfold trim, trimStart.
  assert (E : dropWhile isSpace s = []).
  { induction s as [|c r IH]; [reflexivity|]. cbn [forallb] in H.
    apply andb_true_iff in H. destruct H as [Hc Hr].
    cbn [dropWhile]. rewrite Hc. exact (IH Hr). }
  rewrite E. reflexivity.
Qed.

Lemma sepOf_space (a : BreakAction) : forallb isSpace (sepOf a) = true.
Proof. destruct a; reflexivity. Qed.

(** X12: a paragraph all of whose symbols have a missing or
    whitespace-only text reconstructs to the empty string, whatever its
    break codes, and yields no region, whatever its polygon. *)
Theorem blank_paragraph_is_dropped (pg : Paragraph) :
  Forall (fun s => forallb isSpace (orElse (sym_text s) []) = true)
    (allSymbols pg) ->
  getParagraphText pg = []
  /\ regionOf pg = None
  /\ (forall regions, pushParagraph regions pg = regions).
Proof.
  intros H.
  assert (Hraw : forallb isSpace (rawParagraphText pg) = true).
  { rewrite rawParagraphText_flat.
    induction (allSymbols pg) as [|s r IH]; [reflexivity|].
    inversion H as [|? ? Hs Hr]; subst. cbn [flat_map].
    rewrite forallb_app. unfold symbolText at 1.
    rewrite forallb_app, Hs, sepOf_space, (IH Hr). reflexivity. }
  assert (Ht : getParagraphText pg = []).
  { unfold getParagraphText. apply trim_spaces, replaceBlanksNL_spaces, Hraw. }
  split; [exact Ht|].
  assert (Hr : regionOf pg = None) by (unfold regionOf; rewrite Ht; reflexivity).
  split; [exact Hr|].
  intros regions. rewrite pushParagraph_regionOf, Hr. apply app_nil_r.
Qed.

Lemma blank_paragraph_is_dropped_witness :
  extractRegions [ {| blocks := Some [ {| paragraphs := Some [blankParagraph] |} ] |} ]
  = [].
Proof.
  unfold extractRegions, pushPage, pushBlock. cbn [fold_left orElse blocks paragraphs].
  apply (blank_paragraph_is_dropped blankParagraph).
  repeat constructor.
Defined.

Lemma noBlankBeforeNL_suffix (a m : jsstring) :
  noBlankBeforeNL (a ++ m) = true -> noBlankBeforeNL m = true.
Proof.
  induction a as [|c a IH]; [trivial|]. cbn [app noBlankBeforeNL].
  intros H. apply andb_true_iff in H. exact (IH (proj2 H)).
Qed.

Lemma noBlankBeforeNL_prefix (m b : jsstring) :
  noBlankBeforeNL (m ++ b) = true -> noBlankBeforeNL m = true.
Proof.
  induction m as [|c m IH]; [reflexivity|]. cbn [app noBlankBeforeNL].
  intros H. apply andb_true_iff in H. destruct H as [H1 H2].
  rewrite (IH H2), andb_true_r.
  destruct m as [|d m]; [cbn [startsWithNL]; rewrite andb_false_r; reflexivity|].
  exact H1.
Qed.

(** X13: every text sent to the translation service is non-empty, has no
    whitespace at either end and no space or tab directly in front of a
    newline, and belongs to a region with at least four points. *)
Theorem extracted_texts_are_clean (pages : list Page) :
  Forall (fun r =>
            text r <> []
            /\ trim (text r) = text r
            /\ noBlankBeforeNL (text r) = true
            /\ (4 <= List.length (box r))%nat)
    (extractRegions pages)
  /\ Forall (fun t => t <> [] /\ trim t = t)
       (List.map text (sortRegions (extractRegions pages))).
Proof.
  assert (Hclean : forall pg,
            trim (getParagraphText pg) = getParagraphText pg
            /\ noBlankBeforeNL (getParagraphText pg) = true).
  { intros pg. unfold getParagraphText.
    set (s := replaceBlanksNL (rawParagraphText pg)).
    split.
    - unfold trim at 1, trimStart, trimEnd.
      destruct (trim s) as [|c t] eqn:Et; [reflexivity|].
      pose proof (trim_no_leading_space s c t Et) as Hc.
      cbn [dropWhile]. rewrite Hc.
      destruct (rev (c :: t)) as [|d u] eqn:Er.
      + apply (f_equal (@List.length _)) in Er. rewrite length_rev in Er.
        discriminate Er.
      + assert (Hd : isSpace d = false).
        { apply (trim_no_trailing_space s d u). rewrite Et. exact Er. }
        cbn [dropWhile]. rewrite Hd, <- Er. apply rev_involutive.
    - destruct (trim_split s) as [a [b [Hs _]]].
      assert (Hn : noBlankBeforeNL s = true).
      { subst s. destruct (replaceBlanksNL_spec (rawParagraphText pg)) as [E _].
        rewrite E. apply dropBlanksBeforeNL_clean. }
      rewrite Hs in Hn. apply noBlankBeforeNL_suffix in Hn.
      apply noBlankBeforeNL_prefix in Hn. exact Hn. }
  assert (Hall : forall r, In r (extractRegions pages) ->
            text r <> [] /\ trim (text r) = text r
            /\ noBlankBeforeNL (text r) = true
            /\ (4 <= List.length (box r))%nat).
  { intros r Hr. destruct (extractRegions_box pages r Hr) as [Ht Hb].
    rewrite extractRegions_flat, in_flat_map in Hr. destruct Hr as [pg [_ Hr]].
    destruct (regionOf_cases pg) as [[E _] | [E _]];
      rewrite E in Hr; simpl in Hr; [|contradiction].
    destruct Hr as [<-|[]]. cbn [text box] in *.
    destruct (Hclean pg) as [H1 H2]. repeat split; assumption. }
  split; [apply Forall_forall; exact Hall|].
  apply Forall_forall. intros t Ht. apply in_map_iff in Ht.
  destruct Ht as [r [<- Hr]].
  apply (Permutation_in _ (sortRegions_perm _)) in Hr.
  destruct (Hall r Hr) as [H1 [H2 _]]. split; assumption.
Qed.

(** X14: extraction works page by page and block by block: the regions
    of two lists of pages are the regions of the first followed by those
    of the second, a page without blocks or a block without paragraphs
    contributes nothing, and there are never more regions than
    paragraphs. *)
Theorem extraction_composes (ps qs : list Page) :
  extractRegions (ps ++ qs) = extractRegions ps ++ extractRegions qs
  /\ extractRegions ({| blocks := None |} :: ps) = extractRegions ps
  /\ extractRegions ({| blocks := Some [ {| paragraphs := None |} ] |} :: ps)
     = extractRegions ps
  /\ (List.length (extractRegions ps) <= List.length (allParagraphs ps))%nat.
Proof.
  rewrite !extractRegions_flat. unfold allParagraphs.
  split; [rewrite !flat_map_app; reflexivity|].
  split; [reflexivity|]. split; [reflexivity|].
  induction (flat_map _ ps) as [|pg r IH]; [apply Nat.le_refl|].
  cbn [flat_map]. rewrite length_app. cbn [List.length].
  destruct (regionOf pg); simpl; lia.
Qed.

Lemma sort_kept {A} (cmp : A -> A -> Z) (l : list A) :
  ForallOrdPairs (fun p q => cmp p q <= 0) l -> sort cmp l = l.
Proof.
  induction l as [|a r IH]; intros H; [reflexivity|].
  inversion H as [|? ? Ha Hr]; subst.
  cbn [sort fold_right]. fold (sort cmp r). rewrite (IH Hr).
  destruct r as [|b r]; [reflexivity|]. cbn [insert].
  inversion Ha as [|? ? Hab _]; subst.
  destruct (Z.leb_spec (cmp a b) 0); [reflexivity | lia].
Qed.

Lemma readingOrdered_cmp (l : list Region) :
  readingOrdered l <-> ForallOrdPairs (fun p q => compareRegions p q <= 0) l.
Proof.
  unfold readingOrdered. induction l as [|a r IH].
  - split; constructor.
  - split; intros H; inversion H as [|? ? Ha Hr]; subst; constructor;
      try (apply IH; exact Hr);
      (eapply Forall_impl; [|exact Ha]); intros b; apply compareRegions_order.
Qed.

(** X15: regions (with non-empty polygons) that already stand pairwise
    in reading order are returned by the sort as they are. *)
Theorem ordered_regions_are_kept (regions : list Region) :
  Forall (fun r => box r <> []) regions ->
  readingOrdered regions ->
  sortRegions regions = regions.
Proof.
  intros _ H. apply sort_kept, readingOrdered_cmp, H.
Qed.

Lemma ordered_regions_are_kept_witness :
  sortRegions twoLinesSorted = twoLinesSorted.
Proof.
  apply (ordered_regions_are_kept twoLinesSorted).
  - repeat constructor; discriminate.
  - apply readingOrderedb_iff. vm_compute. reflexivity.
Defined.

Lemma consistentOn_perm (l l' : list Region) :
  Permutation l l' -> consistentOn l -> consistentOn l'.
Proof.
  intros HP H a b c Ha Hb Hc. apply Permutation_sym in HP.
  apply H; apply (Permutation_in _ HP); assumption.
Qed.

(** X16: when the comparator is consistent on the regions (with
    non-empty polygons), sorting the sorted list changes nothing. *)
Theorem sorting_twice_is_sorting_once (regions : list Region) :
  Forall (fun r => box r <> []) regions ->
  consistentOn regions ->
  sortRegions (sortRegions regions) = sortRegions regions.
Proof.
  intros _ Hcons. apply sort_kept.
  apply (sort_ordered compareRegions compareRegions_anti regions Hcons).
  apply incl_refl.
Qed.

Lemma sorting_twice_is_sorting_once_witness :
  sortRegions (sortRegions twoLines) = sortRegions twoLines
  /\ sortRegions twoLines = twoLinesSorted.
Proof.
  split; [|reflexivity].
  apply (sorting_twice_is_sorting_once twoLines).
  { repeat constructor; discriminate. }
  intros a b c Ha Hb Hc. simpl in Ha, Hb, Hc.
  destruct Ha as [<-|[<-|[<-|[]]]];
    destruct Hb as [<-|[<-|[<-|[]]]];
    destruct Hc as [<-|[<-|[<-|[]]]];
    vm_compute; intros H1 H2; try exact H2; try (exfalso; apply H1; reflexivity);
    try (exfalso; apply H2; reflexivity); discriminate.
Defined.

Lemma mapi_from_ext {A B} (f g : A -> nat -> B) (l : list A) (i : nat) :
  (forall a k, (i <= k < i + List.length l)%nat -> f a k = g a k) ->
  mapi_from i f l = mapi_from i g l.
Proof.
  revert i. induction l as [|a l IH]; intros i H; [reflexivity|].
  cbn [mapi_from]. rewrite (H a i) by (cbn [List.length]; lia).
  f_equal. apply IH. intros b k Hk. apply H. cbn [List.length]. lia.
Qed.

Lemma mapi_from_seq {A B C} (f : A -> nat -> B) (g : B -> C) (h : nat -> C)
  (l : list A) (i : nat) :
  (forall a k, g (f a k) = h k) ->
  List.map g (mapi_from i f l) = List.map h (seq i (List.length l)).
Proof.
  intros H. revert i. induction l as [|a l IH]; intros i; [reflexivity|].
  cbn [mapi_from List.map List.length seq]. rewrite H, IH. reflexivity.
Qed.

Lemma nth_nil_column (l : list nat) :
  List.map (fun i => nth i (@nil jsstring) []) l = repeat [] (List.length l).
Proof.
  induction l as [|i l IH]; [reflexivity|].
  cbn [List.map List.length repeat]. rewrite IH. destruct i; reflexivity.
Qed.

Lemma nth_column (answers : list jsstring) (n : nat) :
  List.map (fun i => nth i answers []) (seq 0 n)
  = firstn n answers ++ repeat [] (n - List.length answers).
Proof.
  revert answers. induction n as [|n IH]; intros answers; [reflexivity|].
  destruct answers as [|a t].
  - rewrite nth_nil_column, length_seq, firstn_nil. cbn [List.length app].
    rewrite Nat.sub_0_r. reflexivity.
  - cbn [seq List.map]. rewrite <- seq_shift, map_map.
    cbn [nth firstn List.length app Nat.sub]. f_equal. apply IH.
Qed.

(** X17: the translations drawn are the first |regions| entries of the
    translated list, padded with empty strings when the list is shorter:
    entries beyond the number of regions are ignored, and a list of the
    same length is used as it is. *)
Theorem translations_are_cut_or_padded (regions : list Region)
  (answers : list jsstring) :
  translations (toDraw regions answers)
  = firstn (List.length regions) answers
    ++ repeat [] (List.length regions - List.length answers)
  /\ (forall extra, (List.length regions <= List.length answers)%nat ->
        toDraw regions (answers ++ extra) = toDraw regions answers)
  /\ (List.length answers = List.length regions ->
        translations (toDraw regions answers) = answers).
Proof.
  assert (E : translations (toDraw regions answers)
              = firstn (List.length regions) answers
                ++ repeat [] (List.length regions - List.length answers)).
  { unfold translations, toDraw, mapi.
    rewrite (mapi_from_seq _ translated (fun i => nth i answers [])).
    - apply nth_column.
    - reflexivity. }
  split; [exact E|]. split.
  - intros extra Hlen. unfold toDraw, mapi. apply mapi_from_ext.
    intros a k Hk. f_equal. apply app_nth1. lia.
  - intros Hlen. rewrite E, <- Hlen, firstn_all, Nat.sub_diag.
    apply app_nil_r.
Qed.

(* ================================================================== *)
(** * The route with its collaborators *)

Section RouteFacts.

Variable Buffer : Type.
Variable documentTextDetection : Buffer -> Route.Outcome Route.VisionResponse.
Variable translateText : Route.TranslateRequest -> Route.Outcome Route.TranslateResponse.
Variable loadImage : Buffer -> Route.Outcome (Z * Z).
Variable measureText : Z -> jsstring -> Q.
Variable projectParent : string.

Local Abbreviation route :=
  (Route.translateImageRoute Buffer documentTextDetection translateText
     loadImage measureText projectParent).
Local Abbreviation pagesOf res :=
  (orElse (match Route.fullTextAnnotation res with
           | Some a => Route.pages a
           | None => None
           end) []).

(** X19: when the detected annotation has no usable paragraph (or there
    is no annotation at all) the translation service is not needed: the
    answer is the canvas with the uploaded image alone, or 500 if the
    image cannot be decoded, whatever the translation client would do. *)
Theorem no_usable_text_needs_no_translation (buf : Buffer)
  (res : Route.VisionResponse) :
  documentTextDetection buf = Route.Returned res ->
  extractRegions (pagesOf res) = [] ->
  route (Some buf)
  = match loadImage buf with
    | Route.Threw m => Route.Status 500 (orElse m "Internal error"%string)
    | Route.Returned _ => Route.Png [DrawImage]
    end.
Proof.
  intros Ed Hnone.
  unfold Route.translateImageRoute, Route.translateUpload, Route.ocrBuffer.
  rewrite Ed, Hnone. cbn.
  unfold Route.overlayBuffer. destruct (loadImage buf) as [m|[w h]]; reflexivity.
Qed.

Lemma renderAll_blank (w h : Z) (regions : list DrawRegion) :
  Forall (fun d => translated d = []) regions ->
  renderAll measureText w h regions
  = Some (List.map (fun d => eraseBox w h (dr_box d)) regions).
Proof.
  induction regions as [|d r IH]; intros H; [reflexivity|].
  inversion H as [|? ? Hd Hr]; subst.
  cbn [renderAll]. rewrite (renderRegion_empty _ _ _ _ Hd), (IH Hr). reflexivity.
Qed.

Lemma toDraw_blank (regions : list Region) (answers : list jsstring) :
  Forall (fun t => t = []) answers ->
  Forall (fun d => translated d = []) (toDraw regions answers).
Proof.
  intros H. apply Forall_forall. intros d Hd.
  apply In_nth_error in Hd. destruct Hd as [i Hi].
  rewrite toDraw_nth_error in Hi.
  destruct (nth_error regions i); [|discriminate]. cbn in Hi.
  injection Hi as <-. cbn [translated].
  destruct (Nat.lt_ge_cases i (List.length answers)) as [Hlt|Hge].
  - rewrite Forall_forall in H. apply H. apply nth_In. exact Hlt.
  - apply nth_overflow. exact Hge.
Qed.

(** X20: when the translation client answers every request without a
    usable translation (no list, or entries whose text is missing or
    empty), the answer for a decodable upload is the image followed by
    erasures only: the rectangle of every extracted region is erased
    exactly once and no text is drawn; when the comparator is consistent
    on the extracted regions the erasures come in sorted order. *)
Theorem unusable_translations_blank_every_region (buf : Buffer)
  (res : Route.VisionResponse) (w h : Z) :
  documentTextDetection buf = Route.Returned res ->
  loadImage buf = Route.Returned (w, h) ->
  (forall req, exists resp,
     translateText req = Route.Returned resp
     /\ Forall (fun t => Route.textOf t = [])
          (orElse (Route.translations resp) [])) ->
  exists calls,
    route (Some buf) = Route.Png (DrawImage :: calls)
    /\ Permutation calls
         (List.map (fun r => eraseBox w h (box r)) (extractRegions (pagesOf res)))
    /\ forallb isFillRect calls = true
    /\ (consistentOn (extractRegions (pagesOf res)) ->
        calls = List.map (fun r => eraseBox w h (box r))
                  (sortRegions (extractRegions (pagesOf res)))).
Proof.
  intros Ed El Ht.
  exists (List.map (fun r => eraseBox w h (box r))
            (sortRegions (extractRegions (pagesOf res)))).
  split; [|split; [|split]].
  2: { apply Permutation_map, sortRegions_perm. }
  2: { apply forallb_forall. intros c Hc. apply in_map_iff in Hc.
       destruct Hc as [r [<- _]]. reflexivity. }
  2: { intros _. reflexivity. }
  unfold Route.translateImageRoute, Route.translateUpload, Route.ocrBuffer.
  rewrite Ed.
  set (regions := sortRegions (extractRegions (pagesOf res))).
  assert (Hb : exists answers,
             Route.translateBatch translateText projectParent
               (List.map text regions) "es" = Route.Returned answers
             /\ Forall (fun t => t = []) answers).
  { unfold Route.translateBatch.
    destruct (List.map text regions) as [|t ts]; [exists []; split; constructor|].
    match goal with
    | |- context [translateText ?r] => destruct (Ht r) as [resp [E Hall]]
    end.
    rewrite E. eexists. split; [reflexivity|].
    apply Forall_forall. intros s Hs. apply in_map_iff in Hs.
    destruct Hs as [t' [<- Ht']]. rewrite Forall_forall in Hall. apply Hall, Ht'. }
  destruct Hb as [answers [Eb Hall]].
  change (Route.translateBatch translateText projectParent
            (List.map text
               (sortRegions (extractRegions (pagesOf res)))) "es")
    with (Route.translateBatch translateText projectParent
            (List.map text regions) "es").
  rewrite Eb. unfold Route.overlayBuffer, overlayTranslations. rewrite El.
  rewrite (renderAll_blank w h _ (toDraw_blank regions answers Hall)).
  f_equal. f_equal.
  assert (E : List.map dr_box (toDraw regions answers) = List.map box regions)
    by (apply mapi_from_map; reflexivity).
  rewrite <- (map_map dr_box (eraseBox w h)), E, map_map. reflexivity.
Qed.

End RouteFacts.

Lemma no_usable_text_needs_no_translation_witness :
  Route.translateImageRoute unit noText serviceDown decode200 sampleMeasure
    "projects/p/locations/global" (Some tt)
  = Route.Png [DrawImage].
Proof.
  apply (no_usable_text_needs_no_translation unit noText serviceDown decode200
           sampleMeasure "projects/p/locations/global" tt
           {| Route.fullTextAnnotation := None |});
    reflexivity.
Defined.

Lemma unusable_translations_blank_every_region_witness :
  Route.translateImageRoute unit helloText serviceSilent decode200 sampleMeasure
    "projects/p/locations/global" (Some tt)
  = Route.Png [DrawImage; FillRect White 0 0 90 30].
Proof.
  destruct (unusable_translations_blank_every_region unit helloText
              serviceSilent decode200 sampleMeasure
              "projects/p/locations/global" tt
              {| Route.fullTextAnnotation :=
                   Some {| Route.pages := Some helloPages |} |}
              200 200)
    as [calls [E [_ [_ Hsorted]]]];
    [reflexivity | reflexivity | |].
  - intros req. eexists. split; [reflexivity | constructor].
  - rewrite E, Hsorted; [reflexivity|].
    intros a b c [<-|[]] [<-|[]] [<-|[]] _ _. vm_compute. discriminate.
Defined.

(* ================================================================== *)
(** * counter.js *)

Lemma incrementCount_iter (n : nat) (st : Counter.State) :
  Counter.count (Nat.iter n Counter.incrementCount st)
  = Counter.count st + 5 * Z.of_nat n
  /\ Counter.widths (Nat.iter n Counter.incrementCount st)
     = Counter.widths st ++ repeat (Counter.Percent Counter.NaN) n.
Proof.
  induction n as [|n [IH1 IH2]].
  - simpl. rewrite app_nil_r. split; [lia | reflexivity].
  - rewrite Nat.iter_succ.
    set (s := Nat.iter n Counter.incrementCount st) in *.
    unfold Counter.incrementCount, Counter.updateProgressBar.
    cbn [Counter.count Counter.widths Counter.Math_min2].
    rewrite IH1, IH2. split; [lia|].
    rewrite <- app_assoc. f_equal.
    change [Counter.Percent Counter.NaN]
      with (repeat (Counter.Percent Counter.NaN) 1).
    rewrite <- repeat_app. rewrite Nat.add_1_r. reflexivity.
Qed.

(** X21: each call of [incrementCount] adds 5: after n calls from the
    start [getCount] is 5n, so the count is 100 after exactly twenty
    calls and never negative. *)
Theorem count_after_n_increments (n : nat) :
  Counter.getCount (Nat.iter n Counter.incrementCount Counter.initial)
  = 5 * Z.of_nat n
  /\ (Counter.getCount (Nat.iter n Counter.incrementCount Counter.initial) = 100
      <-> n = 20%nat)
  /\ 0 <= Counter.getCount (Nat.iter n Counter.incrementCount Counter.initial).
Proof.
  unfold Counter.getCount.
  destruct (incrementCount_iter n Counter.initial) as [E _].
  rewrite E. cbn [Counter.count Counter.initial]. repeat split; lia.
Qed.

(** X22: [incrementCount] never passes the count to the progress bar:
    every width it assigns is "NaN%", whatever the count, whereas
    [updateProgressBar] called with a number assigns that number capped
    at 100 (the number itself up to 100, and 100 from there on). *)
Theorem progress_bar_never_gets_the_count (n : nat) (st : Counter.State) :
  Counter.widths (Nat.iter n Counter.incrementCount st)
  = Counter.widths st ++ repeat (Counter.Percent Counter.NaN) n
  /\ (forall c, exists v,
        Counter.widths (Counter.updateProgressBar (Some c) st)
        = Counter.widths st ++ [Counter.Percent (Counter.Num v)]
        /\ v <= 100 /\ (c <= 100 -> v = c) /\ (100 <= c -> v = 100)).
Proof.
  split; [apply incrementCount_iter|].
  intros c. exists (Z.min c 100). cbn. split; [reflexivity | lia].
Qed.

(* ================================================================== *)
(** * public/main.js *)

Lemma showError_keeps (msg : Client.Message) (ui : Client.UI) :
  Client.currentFile (Client.showError msg ui) = Client.currentFile ui
  /\ Client.origSrc (Client.showError msg ui) = Client.origSrc ui
  /\ Client.translateDisabled (Client.showError msg ui)
     = Client.translateDisabled ui
  /\ Client.errorHidden (Client.showError msg ui)
     = Client.falsy (Client.errorText (Client.showError msg ui)).
Proof.
  unfold Client.showError. destruct (Client.falsy msg) eqn:E; cbn.
  - repeat split.
  - repeat split. symmetry. exact E.
Qed.

Lemma handle_file (ui : Client.UI) (e : Client.Event) :
  Client.currentFile (Client.handle ui e) = Client.currentFile ui
  \/ exists f, Client.currentFile (Client.handle ui e) = Some f
               /\ Client.isImage f = true
               /\ Client.origSrc (Client.handle ui e) = Client.FileUrl f
               /\ Client.translateDisabled (Client.handle ui e) = false.
Proof.
  destruct e as [| |f|f| |r]; cbn [Client.handle].
  - left. reflexivity.
  - left. reflexivity.
  - destruct f as [f|]; [destruct (Client.isImage f) eqn:E|].
    + right. exists f. repeat split. exact E.
    + left. rewrite (proj1 (showError_keeps _ _)). reflexivity.
    + left. rewrite (proj1 (showError_keeps _ _)). reflexivity.
  - destruct f as [f|]; [destruct (Client.isImage f) eqn:E|].
    + right. exists f. repeat split. exact E.
    + left. rewrite (proj1 (showError_keeps _ _)). reflexivity.
    + left. reflexivity.
  - destruct (Client.currentFile ui) eqn:E; [left; cbn; exact E|].
    left. rewrite (proj1 (showError_keeps _ _)). exact E.
  - left. destruct r; cbn [Client.setLoading Client.currentFile];
      try rewrite (proj1 (showError_keeps _ _)); reflexivity.
Qed.

(** X23: the selected file is always an image: from the loaded script,
    whatever is dropped, picked, clicked or fetched, [currentFile] is
    either null or a file whose type starts with "image/". *)
Theorem only_images_are_selected (page : Client.UI) (events : list Client.Event) :
  match Client.currentFile (Client.run (Client.loaded page) events) with
  | Some f => Client.isImage f = true
  | None => True
  end.
Proof.
  unfold Client.run.
  assert (H : match Client.currentFile (Client.loaded page) with
              | Some f => Client.isImage f = true
              | None => True
              end) by exact I.
  revert H. generalize (Client.loaded page) as ui.
  induction events as [|e r IH]; intros ui H; [exact H|].
  cbn [fold_left]. apply IH.
  destruct (handle_file ui e) as [E|[f [E [Hf _]]]]; rewrite E; assumption.
Qed.

Lemma handle_error (ui : Client.UI) (e : Client.Event) :
  Client.errorHidden ui = Client.falsy (Client.errorText ui) ->
  Client.errorHidden (Client.handle ui e)
  = Client.falsy (Client.errorText (Client.handle ui e)).
Proof.
  intros H. destruct e as [| |f|f| |r]; cbn [Client.handle].
  - exact H.
  - exact H.
  - destruct f as [f|]; [destruct (Client.isImage f)|];
      first [apply showError_keeps | reflexivity].
  - destruct f as [f|]; [destruct (Client.isImage f)|];
      first [apply showError_keeps | exact H].
  - destruct (Client.currentFile ui); [exact H | apply showError_keeps].
  - destruct r; cbn [Client.setLoading Client.errorHidden Client.errorText];
      first [apply showError_keeps | exact H].
Qed.

(** X24: the error box is shown exactly when it has a text: if that
    holds for the page as loaded, it holds after any sequence of
    events. *)
Theorem error_box_shows_iff_it_has_text (page : Client.UI)
  (events : list Client.Event) :
  Client.errorHidden page = Client.falsy (Client.errorText page) ->
  Client.errorHidden (Client.run (Client.loaded page) events)
  = Client.falsy (Client.errorText (Client.run (Client.loaded page) events)).
Proof.
  intros H. unfold Client.run.
  assert (H0 : Client.errorHidden (Client.loaded page)
               = Client.falsy (Client.errorText (Client.loaded page))) by exact H.
  revert H0. generalize (Client.loaded page) as ui.
  induction events as [|e r IH]; intros ui H0; [exact H0|].
  cbn [fold_left]. apply IH, handle_error, H0.
Qed.

Lemma error_box_shows_iff_it_has_text_witness :
  Client.errorHidden
    (Client.run (Client.loaded freshPage)
       [Client.Drop (Some notes); Client.Change (Some photo); Client.Click;
        Client.Fetched (Client.NotOk 500 "")]) = false
  /\ Client.errorText
       (Client.run (Client.loaded freshPage)
          [Client.Drop (Some notes); Client.Change (Some photo); Client.Click;
           Client.Fetched (Client.NotOk 500 "")]) = Client.ServerError 500.
Proof.
  split; [|reflexivity].
  rewrite (error_box_shows_iff_it_has_text freshPage
             [Client.Drop (Some notes); Client.Change (Some photo); Client.Click;
              Client.Fetched (Client.NotOk 500 "")]); reflexivity.
Defined.

Lemma handle_follows (ui : Client.UI) (e : Client.Event) :
  followsFile ui -> followsFile (Client.handle ui e).
Proof.
  intros [H1 H2]. unfold followsFile.
  destruct (handle_file ui e) as [E|[f [E [_ [Eo Ed]]]]].
  - rewrite E.
    destruct e as [| |f|f| |r]; cbn [Client.handle] in *.
    + split; assumption.
    + split; assumption.
    + destruct f as [f|]; [destruct (Client.isImage f)|].
      * cbn in E. cbn. rewrite <- E. split; [reflexivity | discriminate].
      * destruct (showError_keeps (Client.Text "Please drop a valid image file.")
                    (Client.setDragover false ui)) as [_ [Ho [Hd _]]].
        rewrite Ho, Hd. split; assumption.
      * destruct (showError_keeps (Client.Text "Please drop a valid image file.")
                    (Client.setDragover false ui)) as [_ [Ho [Hd _]]].
        rewrite Ho, Hd. split; assumption.
    + destruct f as [f|]; [destruct (Client.isImage f)|].
      * cbn in E. cbn. rewrite <- E. split; [reflexivity | discriminate].
      * destruct (showError_keeps (Client.Text "Please choose an image file.") ui)
          as [_ [Ho [Hd _]]].
        rewrite Ho, Hd. split; assumption.
      * split; assumption.
    + destruct (Client.currentFile ui) eqn:Ec.
      * cbn. split; [exact H1 | discriminate].
      * destruct (showError_keeps (Client.Text "Select an image first.") ui)
          as [_ [Ho [Hd _]]].
        rewrite Ho, Hd. split; assumption.
    + destruct r; cbn [Client.setLoading Client.origSrc Client.translateDisabled
                         Client.currentFile Client.setOut];
        try match goal with
            | |- context [Client.showError ?m ui] =>
                destruct (showError_keeps m ui) as [Hc [Ho _]]; rewrite Ho, Hc
            end;
        (split; [exact H1|]);
        destruct (Client.currentFile ui); intros; discriminate.
  - rewrite E, Eo. split; [reflexivity | discriminate].
Qed.

(** X25: if the page loads with an empty preview and a disabled button,
    then after any sequence of events the preview shows exactly the
    selected file (nothing when there is none) and the button is enabled
    only while a file is selected. *)
Theorem preview_and_button_follow_the_file (page : Client.UI)
  (events : list Client.Event) :
  Client.origSrc page = Client.NoSrc ->
  Client.translateDisabled page = true ->
  followsFile (Client.run (Client.loaded page) events).
Proof.
  intros Ho Hd. unfold Client.run.
  assert (H0 : followsFile (Client.loaded page)).
  { unfold followsFile. cbn. split; [exact Ho|]. rewrite Hd. discriminate. }
  revert H0. generalize (Client.loaded page) as ui.
  induction events as [|e r IH]; intros ui H0; [exact H0|].
  cbn [fold_left]. apply IH, handle_follows, H0.
Qed.

Lemma preview_and_button_follow_the_file_witness :
  followsFile
    (Client.run (Client.loaded freshPage)
       [Client.Drop (Some photo); Client.Click; Client.Drop (Some notes);
        Client.Fetched (Client.Ok 1)]).
Proof.
  apply (preview_and_button_follow_the_file freshPage); reflexivity.
Defined.
